(** * AutoDeployer: the deployment pipeline of [src/App.tsx]

    A shallow embedding of the [App] component's state (its [useState]
    cells), of its setters [addLog] and [updateStep], of the [onChange]
    normalisation of the project name, and of [handleDeploy], whose
    [try]/[catch]/[finally] body is run one statement at a time by a small
    machine driven by events.

    The machine is finer than the component: it lets the inputs be edited
    and the button be pressed between any two statements, where the
    component can only be reached at an [await]; and it lets any statement
    of the [try] block raise, which is what the [catch] block provides for.
    It renders the component after every event; the machine [rstep] keeps
    the state of the last render apart from the cells and lets several
    invocations be in flight. *)

From Stdlib Require Import String Ascii List Bool Arith ZArith Lia.
Import ListNotations.
Open Scope string_scope.
Open Scope list_scope.
Open Scope nat_scope.

(** ** Types (App.tsx, lines 19-31) *)

Inductive StepStatus : Type := idle | loading | success | error.

Definition StepStatus_eqb (a b : StepStatus) : bool :=
  match a, b with
  | idle, idle | loading, loading | success, success | error, error => true
  | _, _ => false
  end.

Record Step : Type := mkStep {
  id : string;
  label : string;
  status : StepStatus
}.

(** The [type] field of a [LogEntry]; it shares two names with [StepStatus],
    hence the name space. *)
Module LogType.

Inductive t : Type := info | success | error | warning.

Definition eqb (a b : t) : bool :=
  match a, b with
  | info, info | success, success | error, error | warning, warning => true
  | _, _ => false
  end.

End LogType.

Record LogEntry : Type := mkLog {
  timestamp : string;
  message : string;
  type : LogType.t
}.

(** ** Component state: one field per [useState] cell (lines 126-147) *)

Record AppState : Type := mkApp {
  projectName : string;
  code : string;
  isDeploying : bool;
  deployedUrl : option string;
  logs : list LogEntry;
  steps : list Step
}.

Definition initial_steps : list Step :=
  [ mkStep "validate" "Validate & Bundle Code" idle;
    mkStep "github" "Create GitHub Repository" idle;
    mkStep "push" "Push to Main Branch" idle;
    mkStep "vercel" "Deploy to Vercel" idle;
    mkStep "live" "Verify Live URL" idle ].

Definition dquote : string := String (ascii_of_nat 34) EmptyString.

Definition newline : string := String (ascii_of_nat 10) EmptyString.

(** The rocket of the initial text, U+1F680, as its UTF-8 bytes: the text
    of the editor is stored and never inspected. *)
Definition rocket : string :=
  String (ascii_of_nat 240) (String (ascii_of_nat 159)
    (String (ascii_of_nat 154) (String (ascii_of_nat 128) EmptyString))).

(** The initial text of the code editor (lines 127-135). *)
Definition initial_code : string :=
  ("import React from 'react';" ++ newline ++
   newline ++
   "export default function App() {" ++ newline ++
   "  return (" ++ newline ++
   "    <div className=" ++ dquote ++
     "min-h-screen bg-black text-white flex items-center justify-center" ++
     dquote ++ ">" ++ newline ++
   "      <h1 className=" ++ dquote ++ "text-4xl font-bold" ++ dquote ++
     ">Hello World! " ++ rocket ++ "</h1>" ++ newline ++
   "    </div>" ++ newline ++
   "  );" ++ newline ++
   "}")%string.

Definition initial_app : AppState :=
  mkApp "my-awesome-app" initial_code false None [] initial_steps.

(** ** Setters *)

Definition setProjectName (v : string) (s : AppState) : AppState :=
  mkApp v (code s) (isDeploying s) (deployedUrl s) (logs s) (steps s).

Definition setCode (v : string) (s : AppState) : AppState :=
  mkApp (projectName s) v (isDeploying s) (deployedUrl s) (logs s) (steps s).

Definition setIsDeploying (b : bool) (s : AppState) : AppState :=
  mkApp (projectName s) (code s) b (deployedUrl s) (logs s) (steps s).

Definition setDeployedUrl (u : option string) (s : AppState) : AppState :=
  mkApp (projectName s) (code s) (isDeploying s) u (logs s) (steps s).

Definition setLogs (f : list LogEntry -> list LogEntry) (s : AppState) : AppState :=
  mkApp (projectName s) (code s) (isDeploying s) (deployedUrl s) (f (logs s)) (steps s).

Definition setSteps (f : list Step -> list Step) (s : AppState) : AppState :=
  mkApp (projectName s) (code s) (isDeploying s) (deployedUrl s) (logs s) (f (steps s)).

(** [addLog] (lines 149-152): [now] is the reading of the clock, already
    formatted by [toLocaleTimeString]. *)
Definition addLog (now : string) (msg : string) (ty : LogType.t) (s : AppState) : AppState :=
  setLogs (fun prev => prev ++ [mkLog now msg ty]) s.

(** [updateStep] (lines 154-156). *)
Definition updateStep (i : string) (st : StepStatus) (s : AppState) : AppState :=
  setSteps (map (fun x => if String.eqb (id x) i then mkStep (id x) (label x) st else x)) s.

(** ** Normalisation of the project name (line 264)

    [e.target.value.toLowerCase().replace(/\s+/g, '-')].  A string of the
    state is a sequence of UTF-16 code units below U+0100, one per
    character.  On these [toLowerCase] maps [A]-[Z] and the letters U+00C0
    to U+00DE, the sign U+00D7 apart, to the code unit 32 above and leaves
    the others as they are; and [\s] matches tab, line feed, vertical tab,
    form feed, carriage return, space and the no-break space U+00A0.  The
    normalisation of strings of any code units, over the platform's own
    [toLowerCase] and [\s], is [js_normalize] below. *)

Definition is_upper (c : ascii) : bool :=
  let n := nat_of_ascii c in
  ((65 <=? n) && (n <=? 90)) ||
  ((192 <=? n) && (n <=? 222) && negb (n =? 215)).

Definition lower_char (c : ascii) : ascii :=
  if is_upper c then ascii_of_nat (nat_of_ascii c + 32) else c.

Fixpoint toLowerCase (s : string) : string :=
  match s with
  | EmptyString => EmptyString
  | String c r => String (lower_char c) (toLowerCase r)
  end.

Definition is_space (c : ascii) : bool :=
  let n := nat_of_ascii c in
  ((9 <=? n) && (n <=? 13)) || (n =? 32) || (n =? 160).

Definition hyphen : ascii := ascii_of_nat 45.

(** The global replace: at each position, a greedy match of [\s+] is
    replaced by the hyphen and the scan resumes after the match
    ([skip_spaces] consumes the rest of a match). *)
Fixpoint replace_spaces (s : string) : string :=
  match s with
  | EmptyString => EmptyString
  | String c r =>
      if is_space c then String hyphen (skip_spaces r)
      else String c (replace_spaces r)
  end
with skip_spaces (s : string) : string :=
  match s with
  | EmptyString => EmptyString
  | String c r =>
      if is_space c then skip_spaces r
      else String c (replace_spaces r)
  end.

Definition normalize (raw : string) : string :=
  replace_spaces (toLowerCase raw).

(** The [onChange] handler of the project-name input. *)
Definition onChangeProjectName (raw : string) (s : AppState) : AppState :=
  setProjectName (normalize raw) s.

(** The [onChange] handler of the code editor (line 276). *)
Definition onChangeCode (v : string) (s : AppState) : AppState :=
  setCode v s.

(** ** The body of [handleDeploy] (lines 158-219)

    The statements of the [try] block, in source order.  [Await ms] is
    [await new Promise(r => setTimeout(r, ms))]. *)

Inductive Instr : Type :=
| UpdateStep (i : string) (st : StepStatus)
| AddLog (msg : string) (ty : LogType.t)
| Await (ms : nat)
| SetDeployedUrl (url : string).

(** [const url = `https://${projectName}.vercel.app`] (line 208). *)
Definition deploy_url (pn : string) : string :=
  ("https://" ++ pn ++ ".vercel.app")%string.

(** [pn] is the [projectName] the closure of [handleDeploy] captured. *)
Definition try_body (pn : string) : list Instr :=
  [ (* Step 1: Validate *)
    UpdateStep "validate" loading;
    AddLog "Starting deployment process..." LogType.info;
    Await 800;
    AddLog "Analyzing dependency tree..." LogType.info;
    Await 800;
    AddLog "Code validation successful. Bundle size: 42KB" LogType.success;
    UpdateStep "validate" success;
    (* Step 2: GitHub *)
    UpdateStep "github" loading;
    AddLog "Connecting to GitHub API..." LogType.info;
    Await 1000;
    AddLog ("Creating repository '" ++ pn ++ "'...")%string LogType.info;
    Await 1200;
    AddLog ("Repository created: github.com/user/" ++ pn)%string LogType.success;
    UpdateStep "github" success;
    (* Step 3: Push *)
    UpdateStep "push" loading;
    AddLog "Initializing git..." LogType.info;
    Await 600;
    AddLog "Staging files..." LogType.info;
    AddLog ("Committing: " ++ dquote ++ "Initial commit" ++ dquote)%string LogType.info;
    Await 1000;
    AddLog "Pushing to origin/main..." LogType.success;
    UpdateStep "push" success;
    (* Step 4: Vercel *)
    UpdateStep "vercel" loading;
    AddLog "Triggering Vercel deployment hook..." LogType.info;
    Await 1500;
    AddLog "Build started in container i-0a1b2c..." LogType.info;
    AddLog "Installing dependencies..." LogType.info;
    Await 2000;
    AddLog "Build completed in 2.4s" LogType.success;
    UpdateStep "vercel" success;
    (* Step 5: Live *)
    UpdateStep "live" loading;
    AddLog "Assigning domains..." LogType.info;
    Await 800;
    AddLog ("Deployment active at " ++ deploy_url pn)%string LogType.success;
    UpdateStep "live" success;
    SetDeployedUrl (deploy_url pn) ].

(** The number of statements of the [try] block. *)
Definition body_len : nat := Eval cbv in length (try_body "").

Definition exec_instr (now : string) (i : Instr) (s : AppState) : AppState :=
  match i with
  | UpdateStep k st => updateStep k st s
  | AddLog msg ty => addLog now msg ty s
  | Await _ => s
  | SetDeployedUrl u => setDeployedUrl (Some u) s
  end.

(** The four setters before the [try] (lines 160-163). *)
Definition reset_run (s : AppState) : AppState :=
  setSteps (fun _ => map (fun x => mkStep (id x) (label x) idle) (steps s))
    (setLogs (fun _ => [])
      (setDeployedUrl None
        (setIsDeploying true s))).

(** [catch (error) { addLog(..., 'error') }] (line 215). *)
Definition catch_handler (now : string) (s : AppState) : AppState :=
  addLog now "An unexpected error occurred during deployment." LogType.error s.

(** [finally { setIsDeploying(false) }] (line 217). *)
Definition finally_handler (s : AppState) : AppState :=
  setIsDeploying false s.

(** ** The machine

    The component with a render after every event: the handlers' closures
    hold the current values of the cells, so that one invocation of
    [handleDeploy] at most is in flight.  (Presses that come before the
    render are the matter of [rstep] below.)  Where that invocation stands:
    not started or returned ([Idle]); before statement [pc] of the [try]
    block, with the project name the closure holds; an exception was raised
    and the [catch] block is next; the [finally] block is next.  Exceptions
    are raised by the statements of the [try] block, the only ones the code
    has a handler for. *)
Inductive Control : Type :=
| Idle
| InTry (pn : string) (pc : nat)
| InCatch
| InFinally.

Record Config : Type := mkConfig {
  app : AppState;
  ctl : Control
}.

(** What can happen to the component: the Launch button is pressed; the
    invocation in flight runs its next statement, the clock reading [now];
    the next statement of the [try] block raises an exception instead of
    running; one of the two inputs is edited. *)
Inductive Event : Type :=
| EvStart
| EvTick (now : string)
| EvThrow
| EvChangeName (raw : string)
| EvChangeCode (v : string).

Definition step (e : Event) (c : Config) : Config :=
  match e with
  | EvStart =>
      (* if (isDeploying) return; *)
      if isDeploying (app c) then c
      else mkConfig (reset_run (app c)) (InTry (projectName (app c)) 0)
  | EvTick now =>
      match ctl c with
      | Idle => c
      | InTry pn pc =>
          match nth_error (try_body pn) pc with
          | Some i => mkConfig (exec_instr now i (app c)) (InTry pn (S pc))
          | None => mkConfig (app c) InFinally
          end
      | InCatch => mkConfig (catch_handler now (app c)) InFinally
      | InFinally => mkConfig (finally_handler (app c)) Idle
      end
  | EvThrow =>
      match ctl c with
      | InTry pn pc =>
          match nth_error (try_body pn) pc with
          | Some _ => mkConfig (app c) InCatch
          | None => c
          end
      | _ => c
      end
  | EvChangeName raw => mkConfig (onChangeProjectName raw (app c)) (ctl c)
  | EvChangeCode v => mkConfig (onChangeCode v (app c)) (ctl c)
  end.

Definition run (evs : list Event) (c : Config) : Config :=
  fold_left (fun c e => step e c) evs c.

Definition initial_config : Config := mkConfig initial_app Idle.

Inductive reachable : Config -> Prop :=
| reach_init : reachable initial_config
| reach_step : forall e c, reachable c -> reachable (step e c).

(** ** Observations *)

Definition statuses (c : Config) : list StepStatus := map status (steps (app c)).

Definition count_status (st : StepStatus) (l : list StepStatus) : nat :=
  length (filter (StepStatus_eqb st) l).

Definition count_log (ty : LogType.t) (l : list LogEntry) : nat :=
  length (filter (fun e => LogType.eqb ty (type e)) l).

Definition running (c : Config) : bool := isDeploying (app c).

Definition result (c : Config) : option string := deployedUrl (app c).

(** A whole invocation with no exception: the press of the button and one
    tick per statement, one to leave the [try] block and one for
    [finally]. *)
Definition ticks (n : nat) : list Event := repeat (EvTick "00:00:00") n.

Definition handleDeploy (c : Config) : Config :=
  run (EvStart :: ticks (body_len + 2)) c.

(** An invocation whose statement [k] raises: [k] ticks, the exception, the
    [catch] block and the [finally] block. *)
Definition handleDeploy_throw_at (k : nat) (c : Config) : Config :=
  run (EvStart :: ticks k ++ [EvThrow; EvTick "00:00:00"; EvTick "00:00:00"]) c.

(** ** The statuses and the log length at each point of the [try] block *)

Definition registry_ids : list string := map id initial_steps.

Definition upd_statuses (i : string) (st : StepStatus) (l : list StepStatus)
  : list StepStatus :=
  map (fun kx => if String.eqb (fst kx) i then st else snd kx) (combine registry_ids l).

Definition instr_statuses (i : Instr) (l : list StepStatus) : list StepStatus :=
  match i with
  | UpdateStep k st => upd_statuses k st l
  | _ => l
  end.

Definition instr_logs (i : Instr) : nat :=
  match i with
  | AddLog _ _ => 1
  | _ => 0
  end.

(** The statuses before statement [pc], all stages idle at statement 0. *)
Definition statuses_at (pc : nat) : list StepStatus :=
  fold_left (fun l i => instr_statuses i l) (firstn pc (try_body ""))
            (map (fun _ => idle) registry_ids).

(** The number of entries the [try] block has appended before statement
    [pc]. *)
Definition logs_at (pc : nat) : nat :=
  fold_left (fun n i => n + instr_logs i) (firstn pc (try_body "")) 0.

(** ** The invariant

    What holds of a configuration that stands before statement [pc], or that
    was left there by the invocation before: the registry is the one the
    component started with, the statuses and the log are those of [pc]
    statements, the result is present only after the last one, and
    [isDeploying] is false exactly when no invocation is in flight. *)

Record Inv_at (c : Config) (pc : nat) : Prop := mkInv {
  inv_pc : pc <= body_len;
  inv_ids : map id (steps (app c)) = registry_ids;
  inv_statuses : statuses c = statuses_at pc;
  inv_logs : logs_at pc <= length (logs (app c));
  inv_result : result c <> None -> pc = body_len;
  inv_ctl :
    match ctl c with
    | Idle => running c = false
    | InTry pn k =>
        k = pc /\ running c = true /\
        (pc = body_len -> result c = Some (deploy_url pn))
    | InCatch => running c = true /\ pc < body_len
    | InFinally => running c = true
    end;
  inv_noerr :
    match ctl c with
    | InTry _ _ | InCatch => count_log LogType.error (logs (app c)) = 0
    | _ => True
    end
}.

Definition Inv (c : Config) : Prop := exists pc, Inv_at c pc.

(** ** Predicates of the statements *)

Definition all_idle (l : list StepStatus) : bool := forallb (StepStatus_eqb idle) l.

(** Stages that are [success], then at most one that is [loading], then
    stages that are [idle]. *)
Fixpoint ordered (l : list StepStatus) : bool :=
  match l with
  | [] => true
  | success :: r => ordered r
  | loading :: r => all_idle r
  | idle :: r => all_idle r
  | error :: _ => false
  end.

(** The entry the [catch] block appends. *)
Definition catch_entry (now : string) : LogEntry :=
  mkLog now "An unexpected error occurred during deployment." LogType.error.




(** Events of an invocation: its ticks, and whether a statement raises. *)
Definition is_tick (e : Event) : bool :=
  match e with
  | EvTick _ => true
  | _ => false
  end.

Definition no_throw (e : Event) : bool :=
  match e with
  | EvThrow => false
  | _ => true
  end.

Definition count_ticks (evs : list Event) : nat := length (filter is_tick evs).

(** The maximal runs of a string: each block is flagged as whitespace or
    not, neighbouring blocks have different flags. *)
Fixpoint blocks (s : string) : list (bool * string) :=
  match s with
  | EmptyString => []
  | String c r =>
      match blocks r with
      | [] => [(is_space c, String c EmptyString)]
      | (b, w) :: rest =>
          if Bool.eqb b (is_space c) then (b, String c w) :: rest
          else (is_space c, String c EmptyString) :: (b, w) :: rest
      end
  end.

Definition render (l : list (bool * string)) : string :=
  fold_right (fun (b : bool * string) acc =>
                ((if fst b then "-" else snd b) ++ acc)%string) EmptyString l.

(** The normalisation in the words of the specification: lowercase, then
    every maximal run of whitespace replaced by a single hyphen. *)
Definition spec_normalize (raw : string) : string :=
  render (blocks (toLowerCase raw)).

(** [render] after a leading block of whitespace, if any, is dropped. *)
Definition render_tail (l : list (bool * string)) : string :=
  match l with
  | (true, _) :: rest => render rest
  | _ => render l
  end.

(** No whitespace and no uppercase letter. *)
Fixpoint clean (s : string) : bool :=
  match s with
  | EmptyString => true
  | String c r => negb (is_space c) && negb (is_upper c) && clean r
  end.

Fixpoint no_upper (s : string) : bool :=
  match s with
  | EmptyString => true
  | String c r => negb (is_upper c) && no_upper r
  end.

(** ** The view and the input, beyond the pipeline *)

(** Every character is whitespace. *)
Fixpoint all_space (s : string) : bool :=
  match s with
  | EmptyString => true
  | String c r => is_space c && all_space r
  end.

(** The input of line 261 is of type [text]: its value never holds a line
    feed or a carriage return, the element strips them. *)
Definition is_line_break (c : ascii) : bool :=
  let n := nat_of_ascii c in (n =? 10) || (n =? 13).

Fixpoint strip_line_breaks (s : string) : string :=
  match s with
  | EmptyString => EmptyString
  | String c r =>
      if is_line_break c then strip_line_breaks r
      else String c (strip_line_breaks r)
  end.

(** The project-name input is controlled: its text is [projectName].
    Typing the character [ch] at its end fires [onChange] with the value of
    the element, the text extended by [ch] and stripped. *)
Definition type_char (ch : ascii) (c : Config) : Config :=
  step (EvChangeName
          (strip_line_breaks (projectName (app c) ++ String ch EmptyString)%string)) c.

(** Pasting [w] at the end of the input fires [onChange] once. *)
Definition paste (w : string) (c : Config) : Config :=
  step (EvChangeName (strip_line_breaks (projectName (app c) ++ w)%string)) c.

(** ** Measures and observations of an invocation *)



(** The configuration with another text in the code editor. *)
Definition with_code (v : string) (c : Config) : Config :=
  mkConfig (setCode v (app c)) (ctl c).

(** What the terminal shows of the log, the clock readings apart. *)
Definition log_view (c : Config) : list (string * LogType.t) :=
  map (fun e => (message e, type e)) (logs (app c)).

Definition instr_script (i : Instr) : list (string * LogType.t) :=
  match i with
  | AddLog m ty => [(m, ty)]
  | _ => []
  end.

(** What the first [pc] statements of the [try] block write to the log. *)
Definition script_upto (pn : string) (pc : nat) : list (string * LogType.t) :=
  flat_map instr_script (firstn pc (try_body pn)).

Definition script (pn : string) : list (string * LogType.t) :=
  script_upto pn body_len.

Definition catch_line : string * LogType.t :=
  (message (catch_entry EmptyString), type (catch_entry EmptyString)).

(** The log, the result and the point of control, tied together: [pn] and
    [pc] are the name the last invocation captured and the statement it
    came to. *)
Definition LogInv_at (c : Config) (pn : string) (pc : nat) : Prop :=
  pc <= body_len /\ clean pn = true /\
  match ctl c with
  | InTry pn' pc' =>
      pn' = pn /\ pc' = pc /\ log_view c = script_upto pn pc /\
      result c = (if pc =? body_len then Some (deploy_url pn) else None)
  | InCatch =>
      pc < body_len /\ log_view c = script_upto pn pc /\ result c = None
  | InFinally | Idle =>
      (log_view c = script pn /\ result c = Some (deploy_url pn)) \/
      (log_view c = script_upto pn pc ++ [catch_line] /\ pc < body_len /\
       result c = None) \/
      (log_view c = [] /\ result c = None)
  end.

(** The id and the label of each step. *)
Definition registry (l : list Step) : list (string * string) :=
  map (fun x => (id x, label x)) l.

(** ** The view (lines 39-121 and 221-363)

    What the components render, as data.  Class names that go through [cn]
    are recorded as the arguments the component passes that are not
    [false], in order, before [clsx] and [twMerge] join them. *)

Inductive Icon : Type :=
| CheckCircle2
| Loader2
| AlertCircle
| Number (n : nat).

Record StepView : Type := mkStepView {
  connector : option (list string);
  circle : list string;
  icon : Icon;
  labelClass : list string;
  labelText : string;
  caption : option string
}.

(** [StepIndicator] (lines 78-121).  [currentStepIndex] is a prop the
    component receives and does not use. *)
Definition StepIndicator (step : Step) (index : nat) (currentStepIndex : Z) : StepView :=
  let isCompleted := StepStatus_eqb (status step) success in
  let isCurrent := StepStatus_eqb (status step) loading in
  let isPending := StepStatus_eqb (status step) idle in
  let isError := StepStatus_eqb (status step) error in
  mkStepView
    (if index <? 4
     then Some ["absolute left-4 top-8 w-0.5 h-8 -ml-px";
                if isCompleted then "bg-emerald-500/30" else "bg-slate-800"]
     else None)
    ("w-8 h-8 rounded-full flex items-center justify-center border-2 transition-all duration-300 z-10" ::
     (if isCompleted then ["bg-emerald-500/10 border-emerald-500 text-emerald-500"] else []) ++
     (if isCurrent then ["bg-blue-500/10 border-blue-500 text-blue-500 animate-pulse"] else []) ++
     (if isPending then ["bg-slate-900 border-slate-700 text-slate-700"] else []) ++
     (if isError then ["bg-red-500/10 border-red-500 text-red-500"] else []))
    (if isCompleted then CheckCircle2
     else if isCurrent then Loader2
     else if isError then AlertCircle
     else Number (index + 1))
    ["font-medium text-sm transition-colors";
     if isCompleted then "text-emerald-400"
     else if isCurrent then "text-blue-400"
     else if isError then "text-red-400"
     else "text-slate-500"]
    (label step)
    (if isCurrent then Some "Processing..." else None).

(** [Array.prototype.findIndex]: the index of the first element that
    satisfies [p], or [-1]. *)
Fixpoint findIndex_from {A : Type} (p : A -> bool) (l : list A) (i : nat) : Z :=
  match l with
  | [] => (-1)%Z
  | x :: r => if p x then Z.of_nat i else findIndex_from p r (S i)
  end.

Definition findIndex {A : Type} (p : A -> bool) (l : list A) : Z :=
  findIndex_from p l 0.

(** [steps.findIndex(s => s.status === 'loading')] (line 327). *)
Definition currentStepIndex (a : AppState) : Z :=
  findIndex (fun s => StepStatus_eqb (status s) loading) (steps a).

(** [steps.map((step, idx) => <StepIndicator ... />)] (lines 322-329). *)
Definition stepper (a : AppState) : list StepView :=
  map (fun p => StepIndicator (snd p) (fst p) (currentStepIndex a))
      (combine (seq 0 (length (steps a))) (steps a)).

(** The success card (lines 337-358): [deployedUrl && (...)] renders the
    card for a string that is neither [null] nor empty, and the card shows
    that string. *)
Definition success_card (a : AppState) : option string :=
  match deployedUrl a with
  | None => None
  | Some EmptyString => None
  | Some u => Some u
  end.

Definition is_caption (v : StepView) : bool :=
  match caption v with
  | Some _ => true
  | None => false
  end.

Definition is_alert (v : StepView) : bool :=
  match icon v with
  | AlertCircle => true
  | _ => false
  end.

(** The steps with the given statuses, ids and labels as at the start. *)
Definition steps_with (sts : list StepStatus) : list Step :=
  map (fun p => mkStep (fst (fst p)) (snd (fst p)) (snd p))
      (combine (registry initial_steps) sts).

Definition has_connector (v : StepView) : bool :=
  match connector v with
  | Some _ => true
  | None => false
  end.

Definition is_check (v : StepView) : bool :=
  match icon v with
  | CheckCircle2 => true
  | _ => false
  end.

(** The stepper of a list of steps. *)
Definition view_of (l : list Step) : list StepView :=
  stepper (mkApp EmptyString EmptyString false None [] l).

Definition list_bool_eqb (a b : list bool) : bool :=
  if list_eq_dec Bool.bool_dec a b then true else false.

(** [TerminalView] (lines 39-76): the placeholder, shown for an empty log,
    and one line per entry, keyed by its index.  The children of the message
    span are the marks that apply and the message. *)
Definition check_mark : string :=
  String (ascii_of_nat 226) (String (ascii_of_nat 156) (String (ascii_of_nat 147) " ")).

Definition cross_mark : string :=
  String (ascii_of_nat 226) (String (ascii_of_nat 156) (String (ascii_of_nat 151) " ")).

Record TerminalLine : Type := mkLine {
  key : nat;
  stamp : string;
  lineClass : list string;
  children : list string
}.

Record Terminal : Type := mkTerminal {
  placeholder : option string;
  lines : list TerminalLine
}.

Definition terminal_line (i : nat) (log : LogEntry) : TerminalLine :=
  mkLine i
    ("[" ++ timestamp log ++ "]")%string
    ("break-all" ::
     (if LogType.eqb (type log) LogType.info then ["text-slate-300"] else []) ++
     (if LogType.eqb (type log) LogType.success then ["text-emerald-400"] else []) ++
     (if LogType.eqb (type log) LogType.error then ["text-red-400"] else []) ++
     (if LogType.eqb (type log) LogType.warning then ["text-amber-400"] else []))
    ((if LogType.eqb (type log) LogType.success then [check_mark] else []) ++
     (if LogType.eqb (type log) LogType.error then [cross_mark] else []) ++
     [message log]).

Definition TerminalView (l : list LogEntry) : Terminal :=
  mkTerminal
    (if length l =? 0 then Some "Waiting for process to start..." else None)
    (map (fun p => terminal_line (fst p) (snd p)) (combine (seq 0 (length l)) l)).

Definition list_status_eqb (a b : list StepStatus) : bool :=
  (length a =? length b) &&
  forallb (fun p => StepStatus_eqb (fst p) (snd p)) (combine a b).

(** ** The stages of the [try] block

    The stage a statement belongs to, by the comments [// Step 1] to
    [// Step 5] of the source: the number of stages completed before it.
    The statements of the stages are those before the last one, which sets
    the result. *)
Definition stage_of (pc : nat) : nat :=
  length (filter (fun i => match i with UpdateStep _ success => true | _ => false end)
                 (firstn pc (try_body EmptyString))).

Definition stage_statements : nat := body_len - 1.

(** Whether statement [pc] is the first of its stage, the
    [updateStep(id, 'loading')]. *)
Definition first_of_stage (pc : nat) : bool :=
  match nth_error (try_body EmptyString) pc with
  | Some (UpdateStep _ loading) => true
  | _ => false
  end.

(** The status a stage is left with when its statement [pc] raises. *)
Definition interrupted_status (pc : nat) : StepStatus :=
  if first_of_stage pc then idle else loading.

(** ** The component between renders

    [handleDeploy] is a closure of the render that created it: the
    [isDeploying] of its guard (line 159), the [projectName] of its messages
    and the [steps] of its reset (line 163) are the values of that render,
    while the setters act on the cells.  [live] is the state of the cells,
    [shown] the state of the last render, [flights] the invocations started
    so far, each with its own point of control.  [step] above is this
    machine with a render after every event, where one invocation at most is
    in flight. *)

Definition reset_from (shown live : AppState) : AppState :=
  setSteps (fun _ => map (fun x => mkStep (id x) (label x) idle) (steps shown))
    (setLogs (fun _ => [])
      (setDeployedUrl None
        (setIsDeploying true live))).

Record Rendered : Type := mkRendered {
  live : AppState;
  shown : AppState;
  flights : list Control
}.

(** The button is pressed; React renders; invocation [k] runs its next
    statement, or that statement raises; an input is edited. *)
Inductive REvent : Type :=
| RPress
| RRender
| RTick (k : nat) (now : string)
| RThrow (k : nat)
| RChangeName (raw : string)
| RChangeCode (v : string).

Fixpoint set_flight (k : nat) (x : Control) (l : list Control) : list Control :=
  match l, k with
  | [], _ => []
  | _ :: r, 0 => x :: r
  | y :: r, S k' => y :: set_flight k' x r
  end.

(** Invocation [k] moves as an invocation of [step] does, on the cells. *)
Definition flight_step (e : Event) (k : nat) (r : Rendered) : Rendered :=
  match nth_error (flights r) k with
  | Some x =>
      let c := step e (mkConfig (live r) x) in
      mkRendered (app c) (shown r) (set_flight k (ctl c) (flights r))
  | None => r
  end.

Definition rstep (e : REvent) (r : Rendered) : Rendered :=
  match e with
  | RPress =>
      (* if (isDeploying) return;  with the isDeploying of the render *)
      if isDeploying (shown r) then r
      else mkRendered (reset_from (shown r) (live r)) (shown r)
                      (flights r ++ [InTry (projectName (shown r)) 0])
  | RRender => mkRendered (live r) (live r) (flights r)
  | RTick k now => flight_step (EvTick now) k r
  | RThrow k => flight_step EvThrow k r
  | RChangeName raw => mkRendered (onChangeProjectName raw (live r)) (shown r) (flights r)
  | RChangeCode v => mkRendered (onChangeCode v (live r)) (shown r) (flights r)
  end.

Definition rrun (evs : list REvent) (r : Rendered) : Rendered :=
  fold_left (fun r e => rstep e r) evs r.

Definition initial_rendered : Rendered := mkRendered initial_app initial_app [].

(** A press and the statements [handleDeploy] runs before its first
    [await]. *)
Definition press_and_prefix (k : nat) : list REvent :=
  [RPress; RTick k "12:00:00"; RTick k "12:00:00"].

(** Invocations 0 and 1 run in turn, [n] statements each. *)
Definition in_turn (n : nat) : list REvent :=
  flat_map (fun _ => [RTick 0 "12:00:01"; RTick 1 "12:00:01"]) (seq 0 n).

(** ** The normalisation over the platform's string methods

    [String.prototype.toLowerCase] and the class [\s] of the regular
    expression belong to the platform, not to the repository: here they are
    parameters, [lower] and [space], over any type [char] of code units,
    and [dash] is the hyphen.  [js_replace] is the global replace of line
    264, as [replace_spaces] above. *)
Fixpoint js_replace {char : Type} (space : char -> bool) (dash : char)
    (s : list char) : list char :=
  match s with
  | [] => []
  | c :: r =>
      if space c then dash :: js_skip space dash r
      else c :: js_replace space dash r
  end
with js_skip {char : Type} (space : char -> bool) (dash : char)
    (s : list char) : list char :=
  match s with
  | [] => []
  | c :: r =>
      if space c then js_skip space dash r
      else c :: js_replace space dash r
  end.

Definition js_normalize {char : Type} (lower : list char -> list char)
    (space : char -> bool) (dash : char) (raw : list char) : list char :=
  js_replace space dash (lower raw).

(** The maximal runs of whitespace and of other code units. *)
Fixpoint js_blocks {char : Type} (space : char -> bool) (s : list char)
  : list (bool * list char) :=
  match s with
  | [] => []
  | c :: r =>
      match js_blocks space r with
      | [] => [(space c, [c])]
      | (b, w) :: rest =>
          if Bool.eqb b (space c) then (b, c :: w) :: rest
          else (space c, [c]) :: (b, w) :: rest
      end
  end.

(** What makes them the maximal runs: no block is empty, the code units of
    a block are all whitespace or all not, as its flag says, and
    neighbouring blocks have different flags. *)
Fixpoint maximal_runs {char : Type} (space : char -> bool)
    (l : list (bool * list char)) : Prop :=
  match l with
  | [] => True
  | (b, w) :: rest =>
      w <> [] /\ Forall (fun c => space c = b) w /\
      match rest with
      | [] => True
      | (b', _) :: _ => b' <> b
      end /\
      maximal_runs space rest
  end.

(** Every run of whitespace replaced by one hyphen. *)
Definition js_render {char : Type} (dash : char) (l : list (bool * list char))
  : list char :=
  flat_map (fun b : bool * list char => if fst b then [dash] else snd b) l.

Definition js_render_tail {char : Type} (dash : char) (l : list (bool * list char))
  : list char :=
  match l with
  | (true, _) :: rest => js_render dash rest
  | _ => js_render dash l
  end.

(** * Proofs *)

(** ** Case analysis on the position in the [try] block *)

Lemma upto_body (P : nat -> bool) :
  forallb P (seq 0 (S body_len)) = true ->
  forall pc, pc <= body_len -> P pc = true.
Proof.
  intros H pc Hpc.
  rewrite forallb_forall in H.
  apply H, in_seq. lia.
Qed.

Ltac case_nat k n :=
  lazymatch n with
  | O => idtac
  | S ?m => let k' := fresh "k" in destruct k as [|k']; [ | case_nat k' m ]
  end.

Ltac case_pc k := case_nat k 36.

Lemma nth_body_lt pn k i :
  nth_error (try_body pn) k = Some i -> k < body_len.
Proof.
  intros H.
  assert (Hs : nth_error (try_body pn) k <> None) by congruence.
  apply nth_error_Some in Hs. exact Hs.
Qed.

Lemma nth_body_ge pn k :
  body_len <= k -> nth_error (try_body pn) k = None.
Proof.
  intros H. apply nth_error_None. exact H.
Qed.

Lemma nth_body_some pn k :
  k < body_len -> exists i, nth_error (try_body pn) k = Some i.
Proof.
  intros H.
  destruct (nth_error (try_body pn) k) as [i|] eqn:E; [now exists i|].
  apply nth_error_None in E. change (length (try_body pn)) with body_len in E. lia.
Qed.

(** One statement further: what it does to the statuses, to the number of
    entries and to the result. *)
Lemma body_step pn k i :
  nth_error (try_body pn) k = Some i ->
  statuses_at (S k) = instr_statuses i (statuses_at k) /\
  logs_at (S k) = logs_at k + instr_logs i /\
  (k = 35 -> i = SetDeployedUrl (deploy_url pn)) /\
  (k <> 35 -> forall u, i <> SetDeployedUrl u) /\
  (forall m, i <> AddLog m LogType.error).
Proof.
  intros H. pose proof (nth_body_lt _ _ _ H) as Hlt.
  unfold body_len in Hlt.
  case_pc k; try lia; cbn in H; inversion H; subst i;
    (split; [reflexivity | split; [reflexivity | split; [intros; try reflexivity; lia | split; [intros; try discriminate; lia | intros; discriminate]]]]).
Qed.

(** ** What one statement does to the state *)

Lemma updateStep_ids k st a :
  map id (steps (updateStep k st a)) = map id (steps a).
Proof.
  unfold updateStep, setSteps; cbn.
  induction (steps a) as [|x l IH]; cbn; [reflexivity|].
  rewrite IH. destruct (String.eqb (id x) k); reflexivity.
Qed.

Lemma updateStep_statuses k st a :
  map status (steps (updateStep k st a)) =
  map (fun kx => if String.eqb (fst kx) k then st else snd kx)
      (combine (map id (steps a)) (map status (steps a))).
Proof.
  unfold updateStep, setSteps; cbn.
  induction (steps a) as [|x l IH]; cbn; [reflexivity|].
  rewrite IH. destruct (String.eqb (id x) k); reflexivity.
Qed.

Lemma exec_instr_ids now i a :
  map id (steps (exec_instr now i a)) = map id (steps a).
Proof. destruct i; try reflexivity. apply updateStep_ids. Qed.

Lemma exec_instr_statuses now i a :
  map id (steps a) = registry_ids ->
  map status (steps (exec_instr now i a)) = instr_statuses i (map status (steps a)).
Proof.
  intros Hid. destruct i; try reflexivity.
  unfold exec_instr, instr_statuses, upd_statuses.
  rewrite updateStep_statuses, Hid. reflexivity.
Qed.

Lemma exec_instr_logs now i a :
  exists suffix, logs (exec_instr now i a) = logs a ++ suffix /\
                 length suffix = instr_logs i /\
                 (forall e, In e suffix -> exists m ty, i = AddLog m ty /\ type e = ty).
Proof.
  destruct i; cbn.
  - exists []. rewrite app_nil_r. repeat split. intros e [].
  - exists [mkLog now msg ty]. repeat split.
    intros e [<-|[]]. now exists msg, ty.
  - exists []. rewrite app_nil_r. repeat split. intros e [].
  - exists []. rewrite app_nil_r. repeat split. intros e [].
Qed.

Lemma exec_instr_running now i a :
  isDeploying (exec_instr now i a) = isDeploying a.
Proof. destruct i; reflexivity. Qed.

Lemma exec_instr_name now i a :
  projectName (exec_instr now i a) = projectName a.
Proof. destruct i; reflexivity. Qed.

Lemma exec_instr_result now i a :
  deployedUrl (exec_instr now i a) =
  match i with SetDeployedUrl u => Some u | _ => deployedUrl a end.
Proof. destruct i; reflexivity. Qed.

Lemma reset_run_ids a :
  map id (steps (reset_run a)) = map id (steps a).
Proof.
  unfold reset_run, setSteps; cbn.
  induction (steps a) as [|x l IH]; cbn; [reflexivity|]. now rewrite IH.
Qed.

Lemma reset_run_statuses a :
  map status (steps (reset_run a)) = map (fun _ => idle) (map id (steps a)).
Proof.
  unfold reset_run, setSteps; cbn.
  induction (steps a) as [|x l IH]; cbn; [reflexivity|]. now rewrite IH.
Qed.

Lemma count_log_app ty l1 l2 :
  count_log ty (l1 ++ l2) = count_log ty l1 + count_log ty l2.
Proof. unfold count_log. now rewrite filter_app, length_app. Qed.

Lemma count_log_none ty l :
  (forall e, In e l -> type e <> ty) -> count_log ty l = 0.
Proof.
  unfold count_log. induction l as [|x l IH]; intros H; cbn; [reflexivity|].
  destruct (LogType.eqb ty (type x)) eqn:E.
  - exfalso. apply (H x (or_introl eq_refl)).
    destruct ty, (type x); try discriminate; reflexivity.
  - apply IH. intros e He. apply H. now right.
Qed.

(** ** The invariant of the reachable configurations *)

Lemma Inv_initial : Inv_at initial_config 0.
Proof.
  split; cbn; try reflexivity; try lia.
  intros H; now elim H.
Qed.

Lemma Inv_start c pc :
  Inv_at c pc -> running c = false -> Inv_at (step EvStart c) 0.
Proof.
  intros [Hpc Hid Hst Hlg Hres Hctl Hne] Hrun.
  unfold running in Hrun. unfold step. rewrite Hrun.
  split; unfold running, result, statuses; cbn [app ctl].
  - unfold body_len; lia.
  - rewrite reset_run_ids. exact Hid.
  - rewrite reset_run_statuses, Hid. reflexivity.
  - cbn. lia.
  - cbn. intros H; now elim H.
  - repeat split. unfold body_len. discriminate.
  - reflexivity.
Qed.

Lemma Inv_tick_try c pn pc now i :
  Inv_at c pc -> ctl c = InTry pn pc ->
  nth_error (try_body pn) pc = Some i ->
  Inv_at (mkConfig (exec_instr now i (app c)) (InTry pn (S pc))) (S pc).
Proof.
  intros [Hpc Hid Hst Hlg Hres Hctl Hne] Hc Hn.
  rewrite Hc in Hctl, Hne. destruct Hctl as (_ & Hrun & Hurl).
  pose proof (nth_body_lt _ _ _ Hn) as Hlt.
  destruct (body_step _ _ _ Hn) as (Hs & Hl & H35 & Hn35 & Hnoerr).
  destruct (exec_instr_logs now i (app c)) as (sfx & Hsfx & Hlen & Hty).
  split; unfold running, result, statuses; cbn [app ctl].
  - lia.
  - rewrite exec_instr_ids. exact Hid.
  - rewrite exec_instr_statuses by exact Hid.
    unfold statuses in Hst. rewrite Hst, Hs. reflexivity.
  - rewrite Hsfx, length_app, Hlen, Hl. lia.
  - rewrite exec_instr_result. intros Hr.
    destruct (Nat.eq_dec pc 35) as [->|Hpc35]; [reflexivity|].
    specialize (Hn35 Hpc35).
    destruct i; try (exfalso; apply Hr, eq_sym;
      destruct (deployedUrl (app c)) eqn:E; [ | reflexivity];
      assert (pc = body_len) by (apply Hres; unfold result; congruence); lia).
    exfalso. now apply (Hn35 url).
  - split; [reflexivity|]. split.
    + rewrite exec_instr_running. exact Hrun.
    + intros E. unfold body_len in E. assert (E' : pc = 35) by lia.
      rewrite exec_instr_result, (H35 E'). reflexivity.
  - rewrite Hsfx, count_log_app, Hne. cbn.
    apply count_log_none. intros e He.
    destruct (Hty e He) as (m & ty & -> & Het).
    rewrite Het. intros ->. now apply (Hnoerr m).
Qed.

Lemma Inv_step e c : Inv c -> Inv (step e c).
Proof.
  intros [pc H]. pose proof H as [Hpc Hid Hst Hlg Hres Hctl Hne].
  destruct e as [|now| |raw|v].
  - (* the Launch button *)
    destruct (running c) eqn:Hrun.
    + unfold step. unfold running in Hrun. rewrite Hrun. now exists pc.
    + exists 0. eapply Inv_start; eauto.
  - (* the next statement *)
    unfold step. destruct (ctl c) as [|pn k| |] eqn:Hc.
    + exists pc. exact H.
    + destruct Hctl as (-> & Hrun & Hurl).
      destruct (nth_error (try_body pn) pc) as [i|] eqn:Hn.
      * exists (S pc). eapply Inv_tick_try; eauto.
      * exists pc. split; cbn; auto.
    + destruct Hctl as (Hrun & Hlt).
      exists pc. split; cbn; auto.
      * rewrite length_app. cbn. lia.
    + exists pc. split; cbn; auto.
  - (* an exception *)
    unfold step. destruct (ctl c) as [|pn k| |] eqn:Hc; try (exists pc; exact H).
    destruct Hctl as (-> & Hrun & Hurl).
    destruct (nth_error (try_body pn) pc) as [i|] eqn:Hn.
    + exists pc. split; cbn; auto. split; [exact Hrun|]. eapply nth_body_lt; eauto.
    + exists pc. exact H.
  - exists pc. split; cbn; auto.
  - exists pc. split; cbn; auto.
Qed.

Lemma reachable_Inv c : reachable c -> Inv c.
Proof.
  induction 1 as [|e c _ IH].
  - exists 0. exact Inv_initial.
  - now apply Inv_step.
Qed.

(** ** Runs *)

Lemma run_app e1 e2 c : run (e1 ++ e2) c = run e2 (run e1 c).
Proof. apply fold_left_app. Qed.

Lemma reachable_run evs c : reachable c -> reachable (run evs c).
Proof.
  revert c. induction evs as [|e evs IH]; intros c H; cbn; [exact H|].
  apply IH. now constructor.
Qed.

(** An exception, then the [catch] and the [finally] blocks. *)
Lemma throw_run c pn pc t1 t2 :
  ctl c = InTry pn pc -> pc < body_len ->
  run [EvThrow; EvTick t1; EvTick t2] c =
  mkConfig (finally_handler (catch_handler t1 (app c))) Idle.
Proof.
  intros Hc Hlt. destruct (nth_body_some pn pc Hlt) as [i Hi].
  unfold run; cbn [fold_left]. unfold step at 3. rewrite Hc, Hi. reflexivity.
Qed.

(** ** The shape of the statuses: done stages, at most one stage in
    progress, stages not yet entered *)

Lemma statuses_at_check (P : list StepStatus -> bool) :
  forallb (fun pc => P (statuses_at pc)) (seq 0 (S body_len)) = true ->
  forall c, Inv c -> P (statuses c) = true.
Proof.
  intros H c [pc Hc]. rewrite (inv_statuses _ _ Hc).
  apply (upto_body (fun pc => P (statuses_at pc)) H). exact (inv_pc _ _ Hc).
Qed.

Lemma Inv_ordered c : Inv c -> ordered (statuses c) = true.
Proof. apply statuses_at_check. vm_compute. reflexivity. Qed.

Lemma Inv_length c : Inv c -> length (statuses c) = 5.
Proof.
  intros H. apply Nat.eqb_eq.
  revert c H. apply (statuses_at_check (fun l => length l =? 5)). vm_compute. reflexivity.
Qed.

Lemma Inv_one_loading c : Inv c -> count_status loading (statuses c) <= 1.
Proof.
  intros H. apply Nat.leb_le.
  revert c H. apply (statuses_at_check (fun l => count_status loading l <=? 1)).
  vm_compute. reflexivity.
Qed.

Lemma Inv_no_error c : Inv c -> count_status error (statuses c) = 0.
Proof.
  intros H. apply Nat.eqb_eq.
  revert c H. apply (statuses_at_check (fun l => count_status error l =? 0)).
  vm_compute. reflexivity.
Qed.

Lemma Inv_total c :
  Inv c ->
  count_status success (statuses c) + count_status error (statuses c) +
  count_status idle (statuses c) + count_status loading (statuses c) = 5.
Proof.
  intros H. apply Nat.eqb_eq.
  revert c H.
  apply (statuses_at_check (fun l =>
    count_status success l + count_status error l +
    count_status idle l + count_status loading l =? 5)).
  vm_compute. reflexivity.
Qed.

Lemma all_idle_nth l j :
  all_idle l = true -> j < length l -> nth_error l j = Some idle.
Proof.
  revert j. induction l as [|x l IH]; intros j H Hj; cbn in *; [lia|].
  apply andb_prop in H. destruct H as [Hx Hl].
  destruct j; cbn.
  - destruct x; try discriminate. reflexivity.
  - apply IH; [exact Hl | lia].
Qed.

Lemma ordered_around l k :
  ordered l = true -> nth_error l k = Some loading ->
  (forall j, j < k -> nth_error l j = Some success) /\
  (forall j, k < j -> j < length l -> nth_error l j = Some idle).
Proof.
  revert k. induction l as [|x l IH]; intros k Ho Hk.
  - destruct k; discriminate.
  - destruct k as [|k]; cbn in Hk.
    + inversion Hk; subst x. cbn in Ho. split; [intros; lia|].
      intros [|j] Hj Hl; [lia|]. cbn in *. apply all_idle_nth; [exact Ho|lia].
    + destruct x; cbn in Ho; try discriminate.
      * rewrite (all_idle_nth l k Ho) in Hk; [discriminate|].
        apply nth_error_Some. congruence.
      * rewrite (all_idle_nth l k Ho) in Hk; [discriminate|].
        apply nth_error_Some. congruence.
      * destruct (IH k Ho Hk) as [Hb Ha]. split.
        -- intros [|j] Hj; [reflexivity|]. cbn. apply Hb. lia.
        -- intros [|j] Hj Hl; [lia|]. cbn in *. apply Ha; lia.
Qed.

Lemma stage_profile pc :
  pc < stage_statements ->
  stage_of pc < 5 /\
  statuses_at pc =
    repeat success (stage_of pc) ++
    interrupted_status pc :: repeat idle (4 - stage_of pc).
Proof.
  unfold stage_statements, body_len. intros H.
  case_nat pc 35; try lia; (split; [vm_compute; lia|reflexivity]).
Qed.

Lemma shape_nth (k m : nat) (x : StepStatus) :
  let l := repeat success k ++ x :: repeat idle m in
  nth_error l k = Some x /\
  (forall j, j < k -> nth_error l j = Some success) /\
  (forall j, k < j -> j < k + 1 + m -> nth_error l j = Some idle).
Proof.
  induction k as [|k IH]; cbn.
  - split; [reflexivity|]. split; [intros; lia|].
    intros [|j] Hj Hm; [lia|]. cbn. clear Hj.
    revert j Hm. induction m as [|m IHm]; intros j Hm; [lia|].
    destruct j; cbn; [reflexivity|]. apply IHm. lia.
  - destruct IH as (A & B & C). split; [exact A|]. split.
    + intros [|j] Hj; [reflexivity|]. cbn. apply B. lia.
    + intros [|j] Hj Hm; [lia|]. cbn. apply C; lia.
Qed.

(** * The claims *)

(** The two kinds of invocation on the initial state: one that runs to its
    end, and one whose second stage raises at its first [await]. *)
Example handleDeploy_initial :
  statuses (handleDeploy initial_config) = repeat success 5 /\
  result (handleDeploy initial_config) = Some "https://my-awesome-app.vercel.app" /\
  running (handleDeploy initial_config) = false /\
  length (logs (app (handleDeploy initial_config))) = 16 /\
  statuses (handleDeploy_throw_at 9 initial_config) = [success; loading; idle; idle; idle] /\
  length (logs (app (handleDeploy_throw_at 9 initial_config))) = 5.
Proof. repeat split; reflexivity. Qed.

(** What an exception raised by statement [pc] leaves behind: the statuses
    as they were, one entry of type [error] more, no result, and the
    invocation over. *)
Lemma throw_outcome c pn pc t1 t2 :
  reachable c -> ctl c = InTry pn pc -> pc < body_len ->
  let c' := run [EvThrow; EvTick t1; EvTick t2] c in
  statuses c' = statuses c /\
  logs (app c') = logs (app c) ++ [catch_entry t1] /\
  count_log LogType.error (logs (app c')) = 1 /\
  result c' = None /\ running c' = false /\ ctl c' = Idle.
Proof.
  intros Hr Hc Hlt c'. subst c'. rewrite (throw_run c pn pc t1 t2 Hc Hlt).
  destruct (reachable_Inv c Hr) as [k Hk].
  pose proof (inv_noerr _ _ Hk) as Hne. rewrite Hc in Hne.
  pose proof (inv_ctl _ _ Hk) as Hctl. rewrite Hc in Hctl. destruct Hctl as (E & _ & _).
  subst k. pose proof (inv_result _ _ Hk) as Hres.
  split; [reflexivity|]. split; [reflexivity|]. split; [|split; [|split; reflexivity]].
  - cbn [app]. unfold finally_handler, catch_handler, addLog, setLogs, setIsDeploying.
    cbn [logs]. rewrite count_log_app, Hne. reflexivity.
  - unfold result; cbn. unfold result in Hres.
    destruct (deployedUrl (app c)); [|reflexivity].
    assert (pc = body_len) by (apply Hres; discriminate). lia.
Qed.

(** With a render after every event the guard holds: while [isDeploying]
    is true, a press of the Launch button changes nothing. *)
Theorem start_while_running_is_noop (c : Config) :
  running c = true -> step EvStart c = c.
Proof.
  unfold running, step. intros ->. reflexivity.
Qed.

Lemma start_while_running_is_noop_witness :
  step EvStart (step EvStart initial_config) = step EvStart initial_config.
Proof.
  apply (start_while_running_is_noop (step EvStart initial_config)). reflexivity.
Defined.

(** Claim C4.  In every reachable configuration at most one stage has
    status [loading]; hence a step that puts a stage into [loading] starts
    from a configuration in which no stage is [loading]. *)
Theorem at_most_one_loading (c : Config) :
  reachable c ->
  count_status loading (statuses c) <= 1 /\
  (forall e,
     count_status loading (statuses c) < count_status loading (statuses (step e c)) ->
     count_status loading (statuses c) = 0).
Proof.
  intros Hr. split.
  - apply Inv_one_loading, reachable_Inv, Hr.
  - intros e Hlt.
    assert (H' : count_status loading (statuses (step e c)) <= 1).
    { apply Inv_one_loading, reachable_Inv. now constructor. }
    lia.
Qed.

Lemma at_most_one_loading_witness :
  count_status loading (statuses (run (EvStart :: ticks 9) initial_config)) <= 1.
Proof.
  apply (at_most_one_loading (run (EvStart :: ticks 9) initial_config)).
  apply reachable_run, reach_init.
Defined.

(** Claim C6.  No reachable configuration has a stage with status [error]:
    every status is [idle], [loading] or [success]; and when a statement of
    the [try] block raises, the statuses after the [catch] and [finally]
    blocks are the ones before the exception (a stage that was [loading]
    stays so) while [isDeploying] is false. *)
Theorem no_stage_is_ever_error (c : Config) :
  reachable c ->
  Forall (fun st => st = idle \/ st = loading \/ st = success) (statuses c) /\
  (forall pn pc t1 t2,
     ctl c = InTry pn pc -> pc < body_len ->
     let c' := run [EvThrow; EvTick t1; EvTick t2] c in
     statuses c' = statuses c /\
     (forall k, nth_error (statuses c) k = Some loading ->
                nth_error (statuses c') k = Some loading) /\
     running c' = false /\ ctl c' = Idle).
Proof.
  intros Hr. split.
  - pose proof (Inv_no_error c (reachable_Inv c Hr)) as H.
    unfold count_status in H. apply Forall_forall. intros st Hin.
    destruct st; auto.
    exfalso. assert (Hf : In error (filter (StepStatus_eqb error) (statuses c))).
    { apply filter_In. split; [exact Hin|reflexivity]. }
    destruct (filter (StepStatus_eqb error) (statuses c)); [destruct Hf|discriminate].
  - intros pn pc t1 t2 Hc Hlt c'.
    destruct (throw_outcome c pn pc t1 t2 Hr Hc Hlt) as (Hs & _ & _ & _ & Hrun & Hi).
    fold c' in Hs, Hrun, Hi. repeat split; auto.
    intros k Hk. rewrite Hs. exact Hk.
Qed.

Lemma no_stage_is_ever_error_witness :
  Forall (fun st => st = idle \/ st = loading \/ st = success)
         (statuses (handleDeploy_throw_at 9 initial_config)).
Proof.
  apply (no_stage_is_ever_error (handleDeploy_throw_at 9 initial_config)).
  apply reachable_run, reach_init.
Defined.

(** Claim C1, as the code has it.  When a statement of stage [k] raises,
    no stage is set to [error]: stage [k] keeps the status it has, [idle]
    when the statement is the first of the stage, the
    [updateStep(id, 'loading')] itself, and [loading] otherwise; exactly one
    entry is appended to the log and it has type [error], the only such
    entry of the log; every later stage stays [idle] and every earlier one
    is [success]; the result is absent; and [isDeploying], true until then,
    is false when the invocation is over. *)
Theorem exception_in_stage (c : Config) (pn : string) (pc : nat) (t1 t2 : string) :
  reachable c -> ctl c = InTry pn pc -> pc < stage_statements ->
  let k := stage_of pc in
  let c' := run [EvThrow; EvTick t1; EvTick t2] c in
  k < 5 /\
  nth_error (statuses c') k = Some (interrupted_status pc) /\
  (forall j, nth_error (statuses c') j <> Some error) /\
  logs (app c') = logs (app c) ++ [catch_entry t1] /\
  count_log LogType.error (logs (app c')) = 1 /\
  (forall j, k < j -> j < 5 -> nth_error (statuses c') j = Some idle) /\
  (forall j, j < k -> nth_error (statuses c') j = Some success) /\
  result c' = None /\
  running c = true /\ running c' = false /\ ctl c' = Idle.
Proof.
  intros Hr Hc Hlt k c'.
  assert (Hlt' : pc < body_len) by (unfold stage_statements in Hlt; lia).
  destruct (throw_outcome c pn pc t1 t2 Hr Hc Hlt') as (Hs & Hl & Hn & Hres & Hrun & Hi).
  fold c' in Hs, Hl, Hn, Hres, Hrun, Hi.
  destruct (reachable_Inv c Hr) as [pc' HI].
  pose proof (inv_ctl _ _ HI) as Hctl. rewrite Hc in Hctl.
  destruct Hctl as (<- & Hrun0 & _).
  destruct (stage_profile pc Hlt) as [Hk Hshape]. fold k in Hk, Hshape.
  pose proof (inv_statuses _ _ HI) as Hst. rewrite Hshape in Hst.
  destruct (shape_nth k (4 - k) (interrupted_status pc)) as (A & B & C).
  rewrite Hs, Hst.
  split; [exact Hk|]. split; [exact A|]. split.
  { intros j Hj. destruct (Nat.lt_trichotomy j k) as [H|[->|H]].
    - rewrite (B j H) in Hj. discriminate.
    - rewrite A in Hj. unfold interrupted_status in Hj.
      destruct (first_of_stage pc); discriminate.
    - destruct (Nat.lt_ge_cases j 5) as [H5|H5].
      + rewrite (C j H) in Hj by lia. discriminate.
      + assert (Hn5 : nth_error (repeat success k ++
                         interrupted_status pc :: repeat idle (4 - k)) j = None).
        { apply nth_error_None. rewrite length_app, repeat_length.
          cbn [length]. rewrite repeat_length. clearbody k. lia. }
        rewrite Hn5 in Hj. discriminate. }
  split; [exact Hl|]. split; [exact Hn|]. split.
  { intros j H1 H2. apply C; lia. }
  split; [exact B|]. auto.
Qed.

Lemma exception_in_stage_witness :
  let c := run (EvStart :: ticks 7) initial_config in
  let c' := run [EvThrow; EvTick "12:00:01"; EvTick "12:00:01"] c in
  stage_of 7 = 1 /\ interrupted_status 7 = idle /\
  statuses c' = [success; idle; idle; idle; idle] /\
  nth_error (statuses c') 1 = Some (interrupted_status 7) /\
  count_log LogType.error (logs (app c')) = 1 /\
  result c' = None /\ running c = true /\ running c' = false.
Proof.
  intros c c'.
  destruct (exception_in_stage c "my-awesome-app" 7 "12:00:01" "12:00:01")
    as (_ & H2 & _ & _ & H5 & _ & _ & H8 & H9 & H10 & _).
  - apply reachable_run, reach_init.
  - reflexivity.
  - unfold stage_statements, body_len. lia.
  - repeat split; assumption.
Defined.

(** Claim C1 as stated fails: the statement at index 9 is the first [await]
    of the second stage; after it raises, the second stage is [loading], not
    [error], although the invocation is over. *)
Lemma exception_in_stage_not_error :
  let c := handleDeploy_throw_at 9 initial_config in
  nth_error (try_body "my-awesome-app") 9 = Some (Await 1000) /\
  statuses c = [success; loading; idle; idle; idle] /\
  nth_error (statuses c) 1 <> Some error /\
  running c = false.
Proof.
  cbv zeta. split; [reflexivity|]. split; [reflexivity|].
  split; [discriminate|reflexivity].
Qed.

(** Claim C5, as the code has it.  In a reachable configuration with
    [isDeploying] false, the stages that are [success] or [error], the
    stages that are [idle] and the stages that are [loading] are five in
    all, at most one is [loading], and none is when the result is
    present. *)
Theorem terminal_status_count (c : Config) :
  reachable c -> running c = false ->
  count_status success (statuses c) + count_status error (statuses c) +
  count_status idle (statuses c) + count_status loading (statuses c) = 5 /\
  count_status loading (statuses c) <= 1 /\
  (result c <> None ->
   count_status success (statuses c) + count_status error (statuses c) +
   count_status idle (statuses c) = 5).
Proof.
  intros Hr _. pose proof (reachable_Inv c Hr) as HI.
  split; [apply Inv_total, HI|]. split; [apply Inv_one_loading, HI|].
  intros Hres. destruct HI as [pc Hpc].
  rewrite (inv_statuses _ _ Hpc), (inv_result _ _ Hpc Hres). reflexivity.
Qed.

Lemma terminal_status_count_witness :
  let c := handleDeploy_throw_at 9 initial_config in
  count_status success (statuses c) + count_status error (statuses c) +
  count_status idle (statuses c) + count_status loading (statuses c) = 5.
Proof.
  intros c. apply (terminal_status_count c).
  - apply reachable_run, reach_init.
  - reflexivity.
Defined.

(** Claim C5 as stated fails: after the statement at index 9 raises, the
    invocation is over and the second stage is still [loading], so the
    stages that are [success], [error] or [idle] are four, not five. *)
Lemma terminal_status_count_stuck :
  let c := handleDeploy_throw_at 9 initial_config in
  running c = false /\ ctl c = Idle /\
  count_status loading (statuses c) = 1 /\
  count_status success (statuses c) + count_status error (statuses c) +
  count_status idle (statuses c) <> 5.
Proof.
  cbv zeta. split; [reflexivity|]. split; [reflexivity|]. split; [reflexivity|].
  vm_compute. discriminate.
Qed.




(** ** The log *)





(** ** Stage transitions *)







(** ** Invocations that run to their end *)

Lemma count_ticks_app a b : count_ticks (a ++ b) = count_ticks a + count_ticks b.
Proof. unfold count_ticks. now rewrite filter_app, length_app. Qed.

Lemma count_ticks_cons e l :
  count_ticks (e :: l) = (if is_tick e then 1 else 0) + count_ticks l.
Proof. unfold count_ticks. cbn. destruct (is_tick e); reflexivity. Qed.

Lemma split_last_tick evs n :
  count_ticks evs = S n ->
  exists a t b, evs = a ++ EvTick t :: b /\ count_ticks a = n /\ count_ticks b = 0.
Proof.
  revert n. induction evs as [|e r IH]; intros n H; [discriminate|].
  rewrite count_ticks_cons in H.
  destruct (count_ticks r) as [|m] eqn:Hr.
  - destruct e as [|t| | |]; cbn in H; try discriminate.
    exists [], t, r. repeat split; [|exact Hr]. cbn. lia.
  - destruct (IH m eq_refl) as (a & t & b & -> & Ha & Hb).
    exists (e :: a), t, b. repeat split; [|exact Hb].
    rewrite count_ticks_cons. lia.
Qed.

Lemma Inv_at_edit c pc a' :
  Inv_at c pc ->
  isDeploying a' = isDeploying (app c) -> deployedUrl a' = deployedUrl (app c) ->
  logs a' = logs (app c) -> steps a' = steps (app c) ->
  Inv_at (mkConfig a' (ctl c)) pc.
Proof.
  intros [Hpc Hid Hst Hlg Hres Hctl Hne] E1 E2 E3 E4.
  split; unfold running, result, statuses in *; cbn [app ctl];
    rewrite ?E1, ?E2, ?E3, ?E4; assumption.
Qed.

(** Statements run one after the other as long as none raises. *)
Lemma run_in_try evs : forall c pn pc,
  Inv_at c pc -> ctl c = InTry pn pc ->
  forallb no_throw evs = true ->
  pc + count_ticks evs <= body_len ->
  Inv_at (run evs c) (pc + count_ticks evs) /\
  ctl (run evs c) = InTry pn (pc + count_ticks evs).
Proof.
  induction evs as [|e r IH]; intros c pn pc HI Hc Hnt Hle.
  - cbn. rewrite Nat.add_0_r. auto.
  - cbn in Hnt. apply andb_prop in Hnt. destruct Hnt as [He Hr].
    pose proof (inv_ctl _ _ HI) as Hctl. rewrite Hc in Hctl.
    destruct Hctl as (_ & Hrun & _). unfold running in Hrun.
    change (run (e :: r) c) with (run r (step e c)).
    destruct e as [|t| |raw|v]; try discriminate.
    + rewrite count_ticks_cons in *. cbn [is_tick Nat.add] in *.
      unfold step. rewrite Hrun. apply IH; auto.
    + rewrite count_ticks_cons in *. cbn [is_tick] in *.
      assert (Hlt : pc < body_len) by lia.
      destruct (nth_body_some pn pc Hlt) as [i Hi].
      unfold step. rewrite Hc, Hi.
      replace (pc + (1 + count_ticks r)) with (S pc + count_ticks r) by lia.
      apply IH; auto; [|lia]. eapply Inv_tick_try; eauto.
    + rewrite count_ticks_cons in *. cbn [is_tick Nat.add] in *.
      unfold step. apply IH; cbn [ctl]; auto. apply Inv_at_edit; auto.
    + rewrite count_ticks_cons in *. cbn [is_tick Nat.add] in *.
      unfold step. apply IH; cbn [ctl]; auto. apply Inv_at_edit; auto.
Qed.

(** Before the [finally] block, presses of the button and edits change
    neither the statuses nor the result. *)
Lemma run_in_finally evs : forall c,
  ctl c = InFinally -> running c = true ->
  forallb no_throw evs = true -> count_ticks evs = 0 ->
  ctl (run evs c) = InFinally /\ running (run evs c) = true /\
  statuses (run evs c) = statuses c /\ result (run evs c) = result c.
Proof.
  induction evs as [|e r IH]; intros c Hc Hrun Hnt H0; [cbn; auto|].
  cbn in Hnt. apply andb_prop in Hnt. destruct Hnt as [He Hr].
  change (run (e :: r) c) with (run r (step e c)).
  unfold running in Hrun.
  rewrite count_ticks_cons in H0.
  destruct e as [|t| |raw|v]; try discriminate; cbn [is_tick Nat.add] in H0.
  - unfold step. rewrite Hrun. apply IH; auto.
  - destruct (IH (step (EvChangeName raw) c)) as (A & B & C & D); auto.
  - destruct (IH (step (EvChangeCode v) c)) as (A & B & C & D); auto.
Qed.

Lemma Inv_result_all_success c :
  Inv c -> result c <> None -> statuses c = repeat success 5.
Proof.
  intros [pc H] Hres.
  rewrite (inv_statuses _ _ H), (inv_result _ _ H Hres). reflexivity.
Qed.

Lemma run_to_finally evs c pn :
  Inv_at c 0 -> ctl c = InTry pn 0 ->
  forallb no_throw evs = true -> count_ticks evs <= body_len + 1 ->
  running (run evs c) = true /\
  (count_ticks evs = body_len + 1 ->
   ctl (run evs c) = InFinally /\
   result (run evs c) = Some (deploy_url pn) /\
   statuses (run evs c) = repeat success 5).
Proof.
  intros HI Hc Hnt Hle.
  destruct (Nat.eq_dec (count_ticks evs) (body_len + 1)) as [E|NE].
  - rewrite Nat.add_1_r in E.
    destruct (split_last_tick evs body_len E) as (a & t & b & -> & Ha & Hb).
    rewrite forallb_app in Hnt. apply andb_prop in Hnt. destruct Hnt as [Hna Hnb].
    cbn in Hnb.
    destruct (run_in_try a c pn 0 HI Hc Hna) as [HI1 Hc1]; [lia|].
    rewrite Ha in HI1, Hc1. cbn [Nat.add] in HI1, Hc1.
    rewrite run_app. change (run (EvTick t :: b) (run a c))
      with (run b (step (EvTick t) (run a c))).
    set (c1 := run a c) in *.
    assert (Hs : step (EvTick t) c1 = mkConfig (app c1) InFinally).
    { unfold step. rewrite Hc1, (nth_body_ge pn body_len (le_n _)). reflexivity. }
    rewrite Hs.
    pose proof (inv_ctl _ _ HI1) as Hctl. rewrite Hc1 in Hctl.
    destruct Hctl as (_ & Hrun & Hurl).
    destruct (run_in_finally b (mkConfig (app c1) InFinally)) as (A & B & C & D); auto.
    split; [exact B|]. intros _. split; [exact A|]. split.
    + rewrite D. apply Hurl. reflexivity.
    + rewrite C. exact (inv_statuses _ _ HI1).
  - destruct (run_in_try evs c pn 0 HI Hc Hnt) as [HI1 Hc1]; [cbn; lia|].
    split; [|intros; lia].
    pose proof (inv_ctl _ _ HI1) as Hctl. rewrite Hc1 in Hctl. tauto.
Qed.

(** An invocation in which no statement raises, from the press of the
    button to the tick of its [finally] block. *)
Lemma run_to_completion (c : Config) (evs : list Event) (t : string) :
  reachable c -> running c = false ->
  forallb no_throw evs = true -> count_ticks evs = body_len + 1 ->
  let c' := run (EvStart :: evs ++ [EvTick t]) c in
  statuses c' = repeat success 5 /\
  result c' = Some (deploy_url (projectName (app c))) /\
  running c' = false /\ ctl c' = Idle /\
  (forall e1 e2, evs = e1 ++ e2 -> running (run (EvStart :: e1) c) = true) /\
  (forall e1 e2, EvStart :: evs ++ [EvTick t] = e1 ++ e2 ->
     result (run e1 c) <> None -> statuses (run e1 c) = repeat success 5).
Proof.
  intros Hr Hrun Hnt Hct c'.
  destruct (reachable_Inv c Hr) as [pc0 HI0].
  pose proof (Inv_start c pc0 HI0 Hrun) as HI.
  set (pn := projectName (app c)) in *.
  assert (Hc : ctl (step EvStart c) = InTry pn 0).
  { unfold step. unfold running in Hrun. rewrite Hrun. reflexivity. }
  assert (Hpre : forall e1 e2, evs = e1 ++ e2 ->
            forallb no_throw e1 = true /\ count_ticks e1 <= body_len + 1).
  { intros e1 e2 ->. rewrite forallb_app in Hnt. apply andb_prop in Hnt.
    rewrite count_ticks_app in Hct. split; [tauto|lia]. }
  destruct (run_to_finally evs (step EvStart c) pn HI Hc Hnt) as [Hrn Hfin]; [lia|].
  destruct (Hfin Hct) as (Hf & Hres & Hst).
  assert (Hc' : c' = mkConfig (finally_handler (app (run evs (step EvStart c)))) Idle).
  { unfold c'. change (run (EvStart :: evs ++ [EvTick t]) c)
      with (run (evs ++ [EvTick t]) (step EvStart c)).
    rewrite run_app. cbn [run fold_left]. unfold step at 1.
    fold (run evs (step EvStart c)). rewrite Hf. reflexivity. }
  split; [rewrite Hc'; exact Hst|].
  split; [rewrite Hc'; exact Hres|].
  split; [rewrite Hc'; reflexivity|].
  split; [rewrite Hc'; reflexivity|].
  split.
  - intros e1 e2 E. destruct (Hpre e1 e2 E) as [Hn1 Hc1].
    change (run (EvStart :: e1) c) with (run e1 (step EvStart c)).
    apply (run_to_finally e1 (step EvStart c) pn HI Hc Hn1 Hc1).
  - intros e1 e2 _. apply Inv_result_all_success, reachable_Inv, reachable_run, Hr.
Qed.

(** Claim C2.  An invocation started while [isDeploying] is false and in
    which no statement raises, so that all five stages reach [success],
    whatever presses of the button and edits of the inputs come in
    between, ends after its last tick with all five
    stages [success], the result [https://<projectName>.vercel.app] for the
    project name at the press of the button, and [isDeploying] false;
    [isDeploying] is true at every earlier point of the invocation; and
    whenever the result is present all five stages are [success]. *)
Theorem successful_run (c : Config) (evs : list Event) (t : string) :
  reachable c -> running c = false ->
  forallb no_throw evs = true -> count_ticks evs = body_len + 1 ->
  let c' := run (EvStart :: evs ++ [EvTick t]) c in
  statuses c' = repeat success 5 /\
  result c' = Some (deploy_url (projectName (app c))) /\
  running c' = false /\ ctl c' = Idle /\
  (forall e1 e2, evs = e1 ++ e2 -> running (run (EvStart :: e1) c) = true) /\
  (forall e1 e2, EvStart :: evs ++ [EvTick t] = e1 ++ e2 ->
     result (run e1 c) <> None -> statuses (run e1 c) = repeat success 5).
Proof.
  exact (run_to_completion c evs t).
Qed.

Lemma successful_run_witness :
  let c' := run (EvStart :: ticks (body_len + 1) ++ [EvTick "12:00:09"]) initial_config in
  statuses c' = repeat success 5 /\
  result c' = Some "https://my-awesome-app.vercel.app" /\
  running c' = false /\ ctl c' = Idle.
Proof.
  intros c'.
  destruct (successful_run initial_config (ticks (body_len + 1)) "12:00:09")
    as (A & B & C & D & _).
  - apply reach_init.
  - reflexivity.
  - reflexivity.
  - reflexivity.
  - repeat split; assumption.
Defined.


(** ** Normalisation *)

Lemma replace_spaces_blocks s :
  render (blocks s) = replace_spaces s /\ render_tail (blocks s) = skip_spaces s.
Proof.
  induction s as [|c r [IH1 IH2]]; [split; reflexivity|].
  cbn [blocks replace_spaces skip_spaces].
  destruct (blocks r) as [|[b w] rest] eqn:Hb.
  - cbn in IH1, IH2. rewrite <- IH1, <- IH2.
    destruct (is_space c); split; reflexivity.
  - destruct b, (is_space c); cbn [Bool.eqb]; cbn in IH1, IH2 |- *;
      rewrite <- ?IH1, <- ?IH2; split; reflexivity.
Qed.

Lemma normalize_spec raw : normalize raw = spec_normalize raw.
Proof.
  unfold normalize, spec_normalize.
  symmetry. apply replace_spaces_blocks.
Qed.

Lemma lower_char_not_upper c : is_upper (lower_char c) = false.
Proof. destruct c as [[] [] [] [] [] [] [] []]; reflexivity. Qed.

Lemma lower_char_space c : is_space (lower_char c) = is_space c.
Proof. destruct c as [[] [] [] [] [] [] [] []]; reflexivity. Qed.

Lemma toLowerCase_no_upper s : no_upper (toLowerCase s) = true.
Proof.
  induction s as [|c r IH]; [reflexivity|].
  cbn. now rewrite lower_char_not_upper, IH.
Qed.

Lemma replace_spaces_clean s :
  no_upper s = true ->
  clean (replace_spaces s) = true /\ clean (skip_spaces s) = true.
Proof.
  induction s as [|c r IH]; intros H; [split; reflexivity|].
  cbn in H. apply andb_prop in H. destruct H as [Hc Hr].
  destruct (IH Hr) as [IH1 IH2].
  cbn [replace_spaces skip_spaces].
  destruct (is_space c) eqn:Hs.
  - split; [|exact IH2]. cbn [clean]. rewrite IH2. reflexivity.
  - cbn [clean]. rewrite Hs, Hc, IH1. split; reflexivity.
Qed.

Lemma normalize_clean raw : clean (normalize raw) = true.
Proof. apply replace_spaces_clean, toLowerCase_no_upper. Qed.

Lemma reachable_name_clean c : reachable c -> clean (projectName (app c)) = true.
Proof.
  induction 1 as [|e c Hr IH]; [reflexivity|].
  destruct e as [|now| |raw|v]; unfold step.
  - destruct (isDeploying (app c)); [exact IH|]. exact IH.
  - destruct (ctl c) as [|pn pc| |]; try exact IH.
    destruct (nth_error (try_body pn) pc) as [i|]; [|exact IH].
    cbn [app]. rewrite exec_instr_name. exact IH.
  - destruct (ctl c) as [|pn pc| |]; try exact IH.
    destruct (nth_error (try_body pn) pc); exact IH.
  - cbn. apply normalize_clean.
  - exact IH.
Qed.

(** ** The normalisation over the platform's string methods *)

Lemma js_blocks_concat {char} (space : char -> bool) s :
  concat (map snd (js_blocks space s)) = s.
Proof.
  induction s as [|c r IH]; [reflexivity|].
  cbn [js_blocks]. destruct (js_blocks space r) as [|[b w] rest].
  - cbn in IH |- *. now rewrite <- IH.
  - destruct (Bool.eqb b (space c)); cbn in IH |- *; now rewrite <- IH.
Qed.

Lemma js_blocks_maximal {char} (space : char -> bool) s :
  maximal_runs space (js_blocks space s).
Proof.
  induction s as [|c r IH]; [exact I|].
  cbn [js_blocks]. destruct (js_blocks space r) as [|[b w] rest].
  - cbn. repeat split; [discriminate|]. now constructor.
  - destruct (Bool.eqb b (space c)) eqn:E.
    + apply Bool.eqb_prop in E. cbn in IH |- *.
      destruct IH as (H1 & H2 & H3 & H4).
      repeat split; [discriminate| |exact H3|exact H4].
      constructor; [now symmetry|exact H2].
    + apply Bool.eqb_false_iff in E.
      change (maximal_runs space ((space c, [c]) :: (b, w) :: rest))
        with ([c] <> [] /\ Forall (fun x => space x = space c) [c] /\
              b <> space c /\ maximal_runs space ((b, w) :: rest)).
      split; [discriminate|]. split; [now constructor|]. split; [exact E|exact IH].
Qed.

Lemma js_replace_blocks {char} (space : char -> bool) (dash : char) s :
  js_render dash (js_blocks space s) = js_replace space dash s /\
  js_render_tail dash (js_blocks space s) = js_skip space dash s.
Proof.
  induction s as [|c r [IH1 IH2]]; [split; reflexivity|].
  cbn [js_blocks js_replace js_skip].
  destruct (js_blocks space r) as [|[b w] rest].
  - cbn in IH1, IH2. rewrite <- IH1, <- IH2.
    destruct (space c); split; reflexivity.
  - destruct b, (space c); cbn [Bool.eqb]; cbn in IH1, IH2 |- *;
      rewrite <- ?IH1, <- ?IH2; split; reflexivity.
Qed.

(** The state's strings are the code units below U+0100. *)
Lemma replace_spaces_js s :
  list_ascii_of_string (replace_spaces s) =
    js_replace is_space hyphen (list_ascii_of_string s) /\
  list_ascii_of_string (skip_spaces s) =
    js_skip is_space hyphen (list_ascii_of_string s).
Proof.
  induction s as [|c r [IH1 IH2]]; [split; reflexivity|].
  cbn [replace_spaces skip_spaces list_ascii_of_string js_replace js_skip].
  destruct (is_space c); cbn [list_ascii_of_string]; rewrite ?IH1, ?IH2;
    split; reflexivity.
Qed.

Lemma toLowerCase_js s :
  list_ascii_of_string (toLowerCase s) = map lower_char (list_ascii_of_string s).
Proof. induction s as [|c r IH]; [reflexivity|]. cbn. now rewrite IH. Qed.

Lemma normalize_js raw :
  list_ascii_of_string (normalize raw) =
  js_normalize (map lower_char) is_space hyphen (list_ascii_of_string raw).
Proof.
  unfold normalize, js_normalize.
  rewrite (proj1 (replace_spaces_js _)), toLowerCase_js. reflexivity.
Qed.

(** Claim C10.  Whatever the platform's [toLowerCase] and whitespace class
    are, and for every string of code units, the normalisation of line 264
    is the lowercased text with each of its maximal runs of whitespace
    replaced by one hyphen, the runs being those of [js_blocks]: blocks
    that are not empty, all whitespace or all not, neighbours of different
    kinds, and that make up the lowercased text.  On the strings of the
    state the [onChange] handler stores that text; it has neither whitespace
    nor uppercase letters; [My App] gives [my-app]; the project name of
    every reachable configuration is of that form; and an invocation that
    follows the edit and runs to its end publishes
    [https://<normalised name>.vercel.app]. *)
Theorem project_name_normalized (raw : string) :
  (forall (char : Type) (lower : list char -> list char) (space : char -> bool)
          (dash : char) (text : list char),
     js_normalize lower space dash text =
       js_render dash (js_blocks space (lower text)) /\
     maximal_runs space (js_blocks space (lower text)) /\
     concat (map snd (js_blocks space (lower text))) = lower text) /\
  (forall a,
     list_ascii_of_string (projectName (onChangeProjectName raw a)) =
     js_normalize (map lower_char) is_space hyphen (list_ascii_of_string raw)) /\
  (forall a, projectName (onChangeProjectName raw a) = spec_normalize raw) /\
  clean (spec_normalize raw) = true /\
  spec_normalize "My App" = "my-app" /\
  (forall c, reachable c -> clean (projectName (app c)) = true) /\
  (forall c evs t,
     reachable c -> running c = false ->
     forallb no_throw evs = true -> count_ticks evs = body_len + 1 ->
     result (run (EvChangeName raw :: EvStart :: evs ++ [EvTick t]) c) =
     Some (deploy_url (spec_normalize raw))).
Proof.
  split.
  { intros char lower space dash text. split; [|split].
    - unfold js_normalize. symmetry. apply js_replace_blocks.
    - apply js_blocks_maximal.
    - apply js_blocks_concat. }
  split; [intros a; apply normalize_js|].
  split; [intros a; apply normalize_spec|].
  split; [rewrite <- normalize_spec; apply normalize_clean|].
  split; [reflexivity|].
  split; [exact reachable_name_clean|].
  intros c evs t Hr Hrun Hnt Hct.
  change (run (EvChangeName raw :: EvStart :: evs ++ [EvTick t]) c)
    with (run (EvStart :: evs ++ [EvTick t]) (step (EvChangeName raw) c)).
  destruct (run_to_completion (step (EvChangeName raw) c) evs t) as (_ & H & _); auto.
  - now constructor.
  - rewrite H. cbn. now rewrite normalize_spec.
Qed.

Lemma project_name_normalized_witness :
  result (run (EvChangeName "My App" :: EvStart :: ticks (body_len + 1) ++ [EvTick "12:00:09"])
              initial_config) =
  Some "https://my-app.vercel.app".
Proof.
  destruct (project_name_normalized "My App") as (_ & _ & _ & _ & _ & _ & H).
  apply (H initial_config (ticks (body_len + 1)) "12:00:09").
  - apply reach_init.
  - reflexivity.
  - reflexivity.
  - reflexivity.
Defined.

(** * Further properties of the code *)

(** ** The normalisation of the project name *)

Lemma clean_toLowerCase s : clean s = true -> toLowerCase s = s.
Proof.
  induction s as [|c r IH]; intros H; [reflexivity|].
  cbn in H. apply andb_prop in H. destruct H as [H Hr].
  apply andb_prop in H. destruct H as [_ Hu].
  cbn. unfold lower_char. destruct (is_upper c); [discriminate|].
  now rewrite IH.
Qed.

Lemma clean_replace_spaces s : clean s = true -> replace_spaces s = s.
Proof.
  induction s as [|c r IH]; intros H; [reflexivity|].
  cbn in H. apply andb_prop in H. destruct H as [H Hr].
  apply andb_prop in H. destruct H as [Hs _].
  cbn. destruct (is_space c); [discriminate|].
  now rewrite IH.
Qed.

Lemma clean_normalize s : clean s = true -> normalize s = s.
Proof.
  intros H. unfold normalize. rewrite (clean_toLowerCase s H).
  now apply clean_replace_spaces.
Qed.

Lemma clean_append a b :
  clean (a ++ b)%string = clean a && clean b.
Proof.
  induction a as [|c r IH]; [reflexivity|].
  cbn. rewrite IH. now rewrite andb_assoc.
Qed.

Lemma toLowerCase_append a b :
  toLowerCase (a ++ b)%string = (toLowerCase a ++ toLowerCase b)%string.
Proof. induction a as [|c r IH]; [reflexivity|]. cbn. now rewrite IH. Qed.

Lemma toLowerCase_all_space w : all_space (toLowerCase w) = all_space w.
Proof.
  induction w as [|c r IH]; [reflexivity|].
  cbn. now rewrite lower_char_space, IH.
Qed.

Lemma skip_spaces_all_space w : all_space w = true -> skip_spaces w = EmptyString.
Proof.
  induction w as [|c r IH]; intros H; [reflexivity|].
  cbn in H. apply andb_prop in H. destruct H as [Hc Hr].
  cbn. rewrite Hc. now apply IH.
Qed.

(** A clean text followed by a run of whitespace: the run becomes one
    hyphen. *)
Lemma replace_spaces_trailing s w :
  clean s = true -> all_space w = true -> w <> EmptyString ->
  replace_spaces (s ++ w)%string = (s ++ "-")%string.
Proof.
  intros Hs Hw Hne. induction s as [|c r IH].
  - destruct w as [|a w']; [now elim Hne|].
    cbn in Hw. apply andb_prop in Hw. destruct Hw as [Ha Hw'].
    cbn. rewrite Ha. now rewrite skip_spaces_all_space.
  - cbn in Hs. apply andb_prop in Hs. destruct Hs as [H Hr].
    apply andb_prop in H. destruct H as [Hsp _].
    cbn. destruct (is_space c); [discriminate|]. now rewrite IH.
Qed.

Lemma normalize_trailing s w :
  clean s = true -> all_space w = true -> w <> EmptyString ->
  normalize (s ++ w)%string = (s ++ "-")%string.
Proof.
  intros Hs Hw Hne. unfold normalize.
  rewrite toLowerCase_append, (clean_toLowerCase s Hs).
  apply replace_spaces_trailing; [exact Hs| |].
  - now rewrite toLowerCase_all_space.
  - destruct w; [now elim Hne|discriminate].
Qed.

(** Property X1.  On strings of code units below U+0100, the names the
    normalisation leaves as they are are exactly those without whitespace
    and without uppercase letters; so it is idempotent:
    the text the input shows is never changed by a second pass. *)
Theorem normalize_fixed_points (s : string) :
  (normalize s = s <-> clean s = true) /\
  normalize (normalize s) = normalize s.
Proof.
  split; [split|].
  - intros H. rewrite <- H. apply normalize_clean.
  - apply clean_normalize.
  - apply clean_normalize, normalize_clean.
Qed.

Lemma replace_spaces_length s :
  String.length (replace_spaces s) <= String.length s /\
  String.length (skip_spaces s) <= String.length s.
Proof.
  induction s as [|c r [IH1 IH2]]; [split; cbn; lia|].
  cbn [replace_spaces skip_spaces]. destruct (is_space c); cbn; lia.
Qed.

Lemma toLowerCase_length s : String.length (toLowerCase s) = String.length s.
Proof. induction s as [|c r IH]; [reflexivity|]. cbn. now rewrite IH. Qed.

(** Property X2.  On strings of code units below U+0100, where
    [toLowerCase] keeps the length, the normalised name is never longer
    than the raw text, and it is empty only for the empty text: no text
    is normalised away. *)
Theorem normalize_length (s : string) :
  String.length (normalize s) <= String.length s /\
  (normalize s = EmptyString <-> s = EmptyString).
Proof.
  split.
  - unfold normalize. rewrite <- (toLowerCase_length s).
    apply replace_spaces_length.
  - split; [|intros ->; reflexivity].
    destruct s as [|c r]; [reflexivity|].
    unfold normalize. cbn. destruct (is_space (lower_char c)); discriminate.
Qed.

(** Property X3.  A raw text that is whitespace only, and not empty, is normalised to
    the single hyphen. *)
Theorem normalize_only_spaces (w : string) :
  all_space w = true -> w <> EmptyString -> normalize w = "-".
Proof.
  intros Hw Hne.
  exact (normalize_trailing EmptyString w eq_refl Hw Hne).
Qed.

Lemma normalize_only_spaces_witness :
  normalize (String (ascii_of_nat 32) (String (ascii_of_nat 9) EmptyString)) = "-".
Proof.
  apply normalize_only_spaces; [reflexivity|discriminate].
Defined.

Lemma all_space_char ch : is_space ch = true -> all_space (String ch EmptyString) = true.
Proof. intros H. cbn. now rewrite H. Qed.

Lemma strip_line_breaks_append a b :
  strip_line_breaks (a ++ b)%string =
  (strip_line_breaks a ++ strip_line_breaks b)%string.
Proof.
  induction a as [|c r IH]; [reflexivity|].
  cbn. destruct (is_line_break c); cbn; now rewrite IH.
Qed.

Lemma line_break_is_space c : is_line_break c = true -> is_space c = true.
Proof.
  destruct c as [[] [] [] [] [] [] [] []]; vm_compute; intros H;
    first [reflexivity | discriminate H].
Qed.

Lemma clean_strip_line_breaks s : clean s = true -> strip_line_breaks s = s.
Proof.
  induction s as [|c r IH]; intros H; [reflexivity|].
  cbn in H. apply andb_prop in H. destruct H as [H Hr].
  apply andb_prop in H. destruct H as [Hs _].
  cbn. destruct (is_line_break c) eqn:E.
  - apply line_break_is_space in E. rewrite E in Hs. discriminate.
  - now rewrite IH.
Qed.

(** Property X4.  The single hyphen for a run of whitespace holds within one
    change of the input only.  Two whitespace characters that the input
    accepts (not line breaks), typed one after the other at the end of the
    name, give two hyphens, since the first is a hyphen already when the
    second arrives; pasted together they give one.  A line break typed or
    pasted alone leaves the name as it is. *)
Theorem typed_spaces_accumulate (c : Config) (c1 c2 : ascii) :
  reachable c ->
  is_space c1 = true -> is_line_break c1 = false ->
  is_space c2 = true -> is_line_break c2 = false ->
  projectName (app (type_char c2 (type_char c1 c))) =
    (projectName (app c) ++ "--")%string /\
  projectName (app (paste (String c1 (String c2 EmptyString)) c)) =
    (projectName (app c) ++ "-")%string /\
  (forall ch, is_line_break ch = true ->
     projectName (app (type_char ch c)) = projectName (app c)).
Proof.
  intros Hr H1 L1 H2 L2. pose proof (reachable_name_clean c Hr) as Hc.
  assert (Hty : forall pn ch, clean pn = true -> is_space ch = true ->
            is_line_break ch = false ->
            normalize (strip_line_breaks (pn ++ String ch EmptyString)%string) =
            (pn ++ "-")%string).
  { intros pn ch Hpn Hs Hl.
    rewrite strip_line_breaks_append, (clean_strip_line_breaks pn Hpn).
    cbn [strip_line_breaks]. rewrite Hl.
    apply normalize_trailing; [exact Hpn|now apply all_space_char|discriminate]. }
  assert (E1 : projectName (app (type_char c1 c)) = (projectName (app c) ++ "-")%string).
  { unfold type_char, step, onChangeProjectName; cbn [app projectName setProjectName].
    now apply Hty. }
  split; [|split].
  - unfold type_char at 1. unfold step, onChangeProjectName.
    cbn [app projectName setProjectName]. rewrite E1.
    rewrite Hty; auto.
    + clear. induction (projectName (app c)) as [|a r IH]; [reflexivity|].
      cbn. now rewrite IH.
    + rewrite clean_append, Hc. reflexivity.
  - unfold paste, step, onChangeProjectName; cbn [app projectName setProjectName].
    rewrite strip_line_breaks_append, (clean_strip_line_breaks _ Hc).
    cbn [strip_line_breaks]. rewrite L1, L2.
    apply normalize_trailing; [exact Hc| |discriminate].
    cbn. now rewrite H1, H2.
  - intros ch Hl.
    unfold type_char, step, onChangeProjectName; cbn [app projectName setProjectName].
    rewrite strip_line_breaks_append, (clean_strip_line_breaks _ Hc).
    cbn [strip_line_breaks]. rewrite Hl.
    replace (projectName (app c) ++ "")%string with (projectName (app c)).
    + now apply clean_normalize.
    + clear. induction (projectName (app c)) as [|a r IH]; [reflexivity|].
      cbn. now rewrite <- IH.
Qed.

Lemma typed_spaces_accumulate_witness :
  projectName (app (type_char (ascii_of_nat 32) (type_char (ascii_of_nat 32) initial_config)))
    = "my-awesome-app--" /\
  projectName (app (paste (String (ascii_of_nat 32) (String (ascii_of_nat 32) EmptyString))
                          initial_config))
    = "my-awesome-app-".
Proof.
  destruct (typed_spaces_accumulate initial_config (ascii_of_nat 32) (ascii_of_nat 32))
    as (A & B & _); try reflexivity; [apply reach_init|].
  split; assumption.
Defined.

(** ** [updateStep] *)

Lemma AppState_eta a :
  a = mkApp (projectName a) (code a) (isDeploying a) (deployedUrl a) (logs a) (steps a).
Proof. destruct a; reflexivity. Qed.

Lemma updateStep_steps i st a :
  steps (updateStep i st a) =
  map (fun x => if String.eqb (id x) i then mkStep (id x) (label x) st else x) (steps a).
Proof. reflexivity. Qed.

Lemma updateStep_eq i st a l :
  steps (updateStep i st a) = l ->
  updateStep i st a =
  mkApp (projectName a) (code a) (isDeploying a) (deployedUrl a) (logs a) l.
Proof. intros <-. reflexivity. Qed.

(** Property X5.  [updateStep] with an id that no step has changes nothing. *)
Theorem updateStep_missing_id (i : string) (st : StepStatus) (a : AppState) :
  (forall x, In x (steps a) -> id x <> i) -> updateStep i st a = a.
Proof.
  intros H. rewrite (updateStep_eq i st a (steps a)); [symmetry; apply AppState_eta|].
  rewrite updateStep_steps.
  induction (steps a) as [|x l IH]; [reflexivity|].
  cbn. rewrite IH by (intros y Hy; apply H; now right).
  destruct (String.eqb (id x) i) eqn:E; [|reflexivity].
  apply String.eqb_eq in E. exfalso. apply (H x); [now left|exact E].
Qed.

Lemma updateStep_missing_id_witness :
  updateStep "deploy" error initial_app = initial_app.
Proof.
  apply updateStep_missing_id.
  intros x Hx. cbn in Hx.
  repeat (destruct Hx as [<-|Hx]; [discriminate|]). destruct Hx.
Defined.

(** Property X6.  Updates of two different steps commute, and of two updates of the
    same step the later one wins. *)
Theorem updateStep_compose (i j : string) (s t : StepStatus) (a : AppState) :
  (i <> j -> updateStep i s (updateStep j t a) = updateStep j t (updateStep i s a)) /\
  updateStep i s (updateStep i t a) = updateStep i s a.
Proof.
  split.
  - intros Hij. unfold updateStep, setSteps; cbn. f_equal.
    rewrite !map_map. apply map_ext. intros x.
    destruct (String.eqb (id x) j) eqn:Ej, (String.eqb (id x) i) eqn:Ei;
      cbn; rewrite ?Ei, ?Ej; try reflexivity.
    apply String.eqb_eq in Ei, Ej. congruence.
  - unfold updateStep, setSteps; cbn. f_equal.
    rewrite map_map. apply map_ext. intros x.
    destruct (String.eqb (id x) i) eqn:Ei; cbn; rewrite Ei; reflexivity.
Qed.

Lemma updateStep_compose_witness :
  updateStep "push" loading (updateStep "live" success initial_app) =
  updateStep "live" success (updateStep "push" loading initial_app).
Proof.
  apply (updateStep_compose "push" "live" loading success initial_app). discriminate.
Defined.

Lemma registry_ids_NoDup : NoDup registry_ids.
Proof.
  unfold registry_ids; cbn.
  repeat (constructor; [cbn; intros H; repeat (destruct H as [H|H]; [discriminate|]); exact H|]).
  constructor.
Qed.

(** Property X7.  In a reachable configuration the ids of the steps are distinct, so
    [updateStep] with the id of the step at index [k] writes the status of
    that step and leaves every other step, and the id and the label of that
    one, as they were. *)
Theorem updateStep_writes_one (c : Config) (k : nat) (x : Step) (st : StepStatus) :
  reachable c -> nth_error (steps (app c)) k = Some x ->
  forall m,
    nth_error (steps (updateStep (id x) st (app c))) m =
    if m =? k then Some (mkStep (id x) (label x) st)
    else nth_error (steps (app c)) m.
Proof.
  intros Hr Hk m. destruct (reachable_Inv c Hr) as [pc HI].
  pose proof (inv_ids _ _ HI) as Hid.
  rewrite updateStep_steps, nth_error_map.
  destruct (Nat.eqb_spec m k) as [->|Hne].
  - rewrite Hk. cbn. now rewrite String.eqb_refl.
  - destruct (nth_error (steps (app c)) m) as [y|] eqn:Hm; [|reflexivity].
    cbn. destruct (String.eqb (id y) (id x)) eqn:E; [|reflexivity].
    apply String.eqb_eq in E. exfalso. apply Hne.
    assert (Hnd : NoDup (map id (steps (app c)))) by (rewrite Hid; apply registry_ids_NoDup).
    apply (proj1 (NoDup_nth_error _) Hnd).
    + apply nth_error_Some. rewrite nth_error_map, Hm. discriminate.
    + rewrite !nth_error_map, Hm, Hk. cbn. now rewrite E.
Qed.

Lemma updateStep_writes_one_witness :
  nth_error (steps (updateStep "push" error initial_app)) 2 =
    Some (mkStep "push" "Push to Main Branch" error) /\
  nth_error (steps (updateStep "push" error initial_app)) 3 =
    Some (mkStep "vercel" "Deploy to Vercel" idle).
Proof.
  split.
  - apply (updateStep_writes_one initial_config 2 (mkStep "push" "Push to Main Branch" idle) error);
      [apply reach_init | reflexivity].
  - apply (updateStep_writes_one initial_config 2 (mkStep "push" "Push to Main Branch" idle) error
             reach_init eq_refl 3).
Defined.

(** ** [handleDeploy]: the [finally] block always runs *)






(** ** [handleDeploy]: the code editor *)

Lemma exec_instr_setCode now i v a :
  exec_instr now i (setCode v a) = setCode v (exec_instr now i a).
Proof. destruct i; reflexivity. Qed.

Lemma step_with_code e v c :
  exists v', step e (with_code v c) = with_code v' (step e c).
Proof.
  destruct e as [|now| |raw|w]; unfold step, with_code; cbn [app ctl].
  - cbn [isDeploying setCode]. destruct (isDeploying (app c)); exists v; reflexivity.
  - destruct (ctl c) as [|pn pc| |] eqn:Hc; cbn [app ctl]; rewrite ?Hc;
      try (exists v; reflexivity).
    destruct (nth_error (try_body pn) pc) as [i|]; exists v; cbn [app ctl];
      [now rewrite exec_instr_setCode|reflexivity].
  - destruct (ctl c) as [|pn pc| |] eqn:Hc; cbn [app ctl]; rewrite ?Hc;
      try (exists v; reflexivity).
    destruct (nth_error (try_body pn) pc) as [i|]; exists v; cbn [app ctl];
      rewrite ?Hc; reflexivity.
  - exists v. reflexivity.
  - exists w. reflexivity.
Qed.

Lemma run_with_code evs : forall v c,
  exists v', run evs (with_code v c) = with_code v' (run evs c).
Proof.
  induction evs as [|e r IH]; intros v c; [now exists v|].
  change (run (e :: r) (with_code v c)) with (run r (step e (with_code v c))).
  destruct (step_with_code e v c) as [v' ->].
  apply IH.
Qed.

(** Property X9.  The text of the code editor is never read: whatever it is at the
    start, the same events lead to the same statuses, log, result, flag,
    project name and point of control. *)
Theorem code_is_never_read (v : string) (evs : list Event) (c : Config) :
  let c1 := run evs c in
  let c2 := run evs (with_code v c) in
  steps (app c2) = steps (app c1) /\
  logs (app c2) = logs (app c1) /\
  result c2 = result c1 /\
  running c2 = running c1 /\
  projectName (app c2) = projectName (app c1) /\
  ctl c2 = ctl c1.
Proof.
  cbv zeta. destruct (run_with_code evs v c) as [v' ->].
  repeat split; reflexivity.
Qed.

(** ** [handleDeploy]: what the log holds *)

Lemma firstn_snoc {A} (l : list A) k x :
  nth_error l k = Some x -> firstn (S k) l = firstn k l ++ [x].
Proof.
  revert k. induction l as [|a l IH]; intros [|k] H; try discriminate.
  - cbn in H. injection H as ->. destruct l; reflexivity.
  - cbn in H. change (a :: firstn (S k) l = a :: (firstn k l ++ [x])).
    f_equal. now apply IH.
Qed.

Lemma script_upto_S pn pc i :
  nth_error (try_body pn) pc = Some i ->
  script_upto pn (S pc) = script_upto pn pc ++ instr_script i.
Proof.
  intros H. unfold script_upto. rewrite (firstn_snoc _ _ _ H), flat_map_app.
  cbn. now rewrite app_nil_r.
Qed.

Lemma log_view_exec now i c ctl' :
  log_view (mkConfig (exec_instr now i (app c)) ctl') = log_view c ++ instr_script i.
Proof.
  unfold log_view; cbn [app].
  destruct i; cbn; rewrite ?app_nil_r; try reflexivity.
  now rewrite map_app.
Qed.

Lemma LogInv_initial : LogInv_at initial_config "my-awesome-app" 0.
Proof.
  split; [unfold body_len; lia|]. split; [reflexivity|].
  cbn. right. right. split; reflexivity.
Qed.

Lemma LogInv_step e c :
  reachable c ->
  (exists pn pc, LogInv_at c pn pc) -> exists pn pc, LogInv_at (step e c) pn pc.
Proof.
  intros Hr (pn & pc & Hpc & Hcl & H).
  destruct e as [|now| |raw|v]; unfold step.
  - destruct (isDeploying (app c)) eqn:E.
    + exists pn, pc. repeat split; assumption.
    + exists (projectName (app c)), 0.
      split; [unfold body_len; lia|]. split; [now apply reachable_name_clean|].
      cbn. repeat split.
  - destruct (ctl c) as [|pn' pc'| |] eqn:Hc.
    + exists pn, pc. unfold LogInv_at. rewrite Hc. repeat split; assumption.
    + destruct H as (-> & -> & Hl & Hres).
      destruct (nth_error (try_body pn) pc) as [i|] eqn:Hn.
      * pose proof (nth_body_lt _ _ _ Hn) as Hlt.
        destruct (body_step _ _ _ Hn) as (_ & _ & H35 & Hn35 & _).
        exists pn, (S pc). split; [lia|]. split; [exact Hcl|].
        cbn [ctl]. split; [reflexivity|]. split; [reflexivity|]. split.
        -- rewrite log_view_exec, Hl. symmetry. now apply script_upto_S.
        -- unfold result; cbn [app]. rewrite exec_instr_result.
           unfold body_len in *.
           destruct (Nat.eq_dec pc 35) as [E|NE].
           ++ rewrite (H35 E). subst pc. reflexivity.
           ++ replace (S pc =? 36) with false by (symmetry; apply Nat.eqb_neq; lia).
              specialize (Hn35 NE).
              replace (pc =? 36) with false in Hres by (symmetry; apply Nat.eqb_neq; lia).
              destruct i; try exact Hres. exfalso. now apply (Hn35 url).
      * apply nth_error_None in Hn. change (length (try_body pn)) with body_len in Hn.
        assert (pc = body_len) by lia. subst pc.
        exists pn, body_len. split; [lia|]. split; [exact Hcl|].
        cbn [ctl]. left. split; [exact Hl|].
        rewrite Nat.eqb_refl in Hres. exact Hres.
    + destruct H as (Hlt & Hl & Hres).
      exists pn, pc. split; [lia|]. split; [exact Hcl|].
      cbn [ctl]. right. left. split; [|split; [exact Hlt|exact Hres]].
      unfold log_view, catch_handler, addLog, setLogs; cbn [app logs].
      rewrite map_app. unfold log_view in Hl. rewrite Hl. reflexivity.
    + exists pn, pc. split; [lia|]. split; [exact Hcl|]. exact H.
  - destruct (ctl c) as [|pn' pc'| |] eqn:Hc;
      try (exists pn, pc; unfold LogInv_at; rewrite Hc;
           split; [exact Hpc|split; [exact Hcl|exact H]]).
    destruct H as (-> & -> & Hl & Hres).
    destruct (nth_error (try_body pn) pc) as [i|] eqn:Hn.
    + pose proof (nth_body_lt _ _ _ Hn) as Hlt.
      exists pn, pc. split; [lia|]. split; [exact Hcl|].
      cbn [ctl]. split; [exact Hlt|]. split; [exact Hl|].
      replace (pc =? body_len) with false in Hres by (symmetry; apply Nat.eqb_neq; lia).
      exact Hres.
    + exists pn, pc. unfold LogInv_at. rewrite Hc. repeat split; assumption.
  - exists pn, pc. split; [lia|]. split; [exact Hcl|]. exact H.
  - exists pn, pc. split; [lia|]. split; [exact Hcl|]. exact H.
Qed.

Lemma reachable_LogInv c : reachable c -> exists pn pc, LogInv_at c pn pc.
Proof.
  induction 1 as [|e c Hr IH].
  - exists "my-awesome-app", 0. exact LogInv_initial.
  - now apply LogInv_step.
Qed.





(** ** [handleDeploy]: the registry of steps *)

Lemma registry_updateStep i st a :
  registry (steps (updateStep i st a)) = registry (steps a).
Proof.
  unfold registry. rewrite updateStep_steps, map_map.
  apply map_ext. intros x. destruct (String.eqb (id x) i); reflexivity.
Qed.

Lemma registry_exec now i a :
  registry (steps (exec_instr now i a)) = registry (steps a).
Proof. destruct i; try reflexivity. apply registry_updateStep. Qed.

Lemma registry_reset a :
  registry (steps (reset_run a)) = registry (steps a).
Proof.
  unfold registry, reset_run, setSteps; cbn. rewrite map_map. reflexivity.
Qed.

Lemma reachable_registry c :
  reachable c -> registry (steps (app c)) = registry initial_steps.
Proof.
  induction 1 as [|e c Hr IH]; [reflexivity|].
  destruct e as [|now| |raw|v]; unfold step.
  - destruct (isDeploying (app c)); [exact IH|].
    cbn [app]. now rewrite registry_reset.
  - destruct (ctl c) as [|pn pc| |]; try exact IH.
    destruct (nth_error (try_body pn) pc) as [i|]; [|exact IH].
    cbn [app]. now rewrite registry_exec.
  - destruct (ctl c) as [|pn pc| |]; try exact IH.
    destruct (nth_error (try_body pn) pc); exact IH.
  - exact IH.
  - exact IH.
Qed.

(** Property X13.  The steps keep their ids, their labels and their order for good;
    and a press of the button while [isDeploying] is false, whatever the
    invocation before left behind, gives back the initial steps, an empty
    log and no result. *)
Theorem start_resets_everything (c : Config) :
  reachable c ->
  registry (steps (app c)) = registry initial_steps /\
  (running c = false ->
   steps (app (step EvStart c)) = initial_steps /\
   logs (app (step EvStart c)) = [] /\
   result (step EvStart c) = None /\
   running (step EvStart c) = true).
Proof.
  intros Hr. pose proof (reachable_registry c Hr) as Hreg.
  split; [exact Hreg|]. intros Hrun.
  unfold step. unfold running in Hrun. rewrite Hrun.
  split; [|repeat split].
  unfold reset_run, setSteps; cbn.
  transitivity (map (fun p => mkStep (fst p) (snd p) idle) (registry (steps (app c)))).
  - unfold registry. rewrite map_map. reflexivity.
  - rewrite Hreg. reflexivity.
Qed.

Lemma start_resets_everything_witness :
  steps (app (step EvStart (handleDeploy_throw_at 9 initial_config))) = initial_steps.
Proof.
  apply (start_resets_everything (handleDeploy_throw_at 9 initial_config)).
  - apply reachable_run, reach_init.
  - reflexivity.
Defined.

(** ** The view *)

Lemma findIndex_from_spec {A} (p : A -> bool) (l : list A) : forall i,
  (findIndex_from p l i = (-1)%Z /\ forallb (fun x => negb (p x)) l = true) \/
  (exists k x, findIndex_from p l i = Z.of_nat (i + k) /\
               nth_error l k = Some x /\ p x = true /\
               forallb (fun x => negb (p x)) (firstn k l) = true).
Proof.
  induction l as [|a l IH]; intros i; [left; split; reflexivity|].
  cbn [findIndex_from]. destruct (p a) eqn:Ea.
  - right. exists 0, a. rewrite Nat.add_0_r. repeat split. exact Ea.
  - destruct (IH (S i)) as [[H1 H2]|(k & x & H1 & H2 & H3 & H4)].
    + left. split; [exact H1|]. cbn. now rewrite Ea, H2.
    + right. exists (S k), x. rewrite H1. split; [f_equal; lia|].
      split; [exact H2|]. split; [exact H3|]. cbn. now rewrite Ea, H4.
Qed.

Lemma statuses_nth c k x :
  nth_error (steps (app c)) k = Some x -> nth_error (statuses c) k = Some (status x).
Proof. intros H. unfold statuses. now rewrite nth_error_map, H. Qed.

Lemma count_loading_zero l :
  count_status loading l = 0 <-> forallb (fun st => negb (StepStatus_eqb st loading)) l = true.
Proof.
  unfold count_status. induction l as [|a l IH]; [split; reflexivity|].
  cbn. destruct a; cbn; try exact IH; split; discriminate.
Qed.

Lemma no_loading_nth l k :
  forallb (fun st => negb (StepStatus_eqb st loading)) l = true ->
  nth_error l k <> Some loading.
Proof.
  revert k. induction l as [|a l IH]; intros [|k] H Hk; try discriminate;
    cbn in H, Hk; apply andb_prop in H; destruct H as [Ha Hl].
  - injection Hk as ->. discriminate.
  - now apply (IH k).
Qed.

Lemma one_loading_unique l j k :
  count_status loading l <= 1 ->
  nth_error l j = Some loading -> nth_error l k = Some loading -> j = k.
Proof.
  unfold count_status. revert j k. induction l as [|a l IH]; intros j k Hc Hj Hk.
  - destruct j; discriminate.
  - assert (Hz : forall m, nth_error l m = Some loading ->
                  length (filter (StepStatus_eqb loading) l) >= 1).
    { clear. induction l as [|b l IH]; intros [|m] H; try discriminate; cbn in *.
      - injection H as ->. cbn. lia.
      - specialize (IH m H). destruct b; cbn; lia. }
    destruct j as [|j], k as [|k]; cbn in Hj, Hk; try reflexivity.
    + injection Hj as ->. cbn in Hc. specialize (Hz k Hk). lia.
    + injection Hk as ->. cbn in Hc. specialize (Hz j Hj). lia.
    + f_equal. apply IH; auto. cbn in Hc.
      destruct a; cbn in Hc; lia.
Qed.

(** Property X14.  [currentStepIndex] agrees with the statuses: it is [-1] exactly
    when no step is [loading], and otherwise it is the index of the step
    that is [loading], the only one there is. *)
Theorem currentStepIndex_agrees (c : Config) :
  reachable c ->
  (currentStepIndex (app c) = (-1)%Z <-> count_status loading (statuses c) = 0) /\
  (forall k, nth_error (statuses c) k = Some loading <->
             currentStepIndex (app c) = Z.of_nat k).
Proof.
  intros Hr. pose proof (Inv_one_loading c (reachable_Inv c Hr)) as H1.
  set (p := fun s : Step => StepStatus_eqb (status s) loading).
  assert (Hfa : forall l, forallb (fun x => negb (p x)) l =
                          forallb (fun st => negb (StepStatus_eqb st loading)) (map status l)).
  { induction l as [|a l IH]; [reflexivity|]. cbn. now rewrite IH. }
  unfold currentStepIndex, findIndex. fold p.
  destruct (findIndex_from_spec p (steps (app c)) 0)
    as [[E Hall]|(k0 & x & E & Hx & Hp & Hpre)]; rewrite E.
  - rewrite Hfa in Hall. apply count_loading_zero in Hall. fold (statuses c) in Hall.
    split; [tauto|]. intros k. split; [|lia].
    intros Hk. exfalso. apply count_loading_zero in Hall.
    now apply (no_loading_nth _ k Hall).
  - assert (Hk0 : nth_error (statuses c) k0 = Some loading).
    { rewrite (statuses_nth c k0 x Hx). f_equal. unfold p in Hp.
      destruct (status x); try discriminate; reflexivity. }
    split.
    + split; [lia|]. intros H0. exfalso. apply count_loading_zero in H0.
      now apply (no_loading_nth _ k0 H0).
    + intros k. split.
      * intros Hk. rewrite (one_loading_unique _ _ _ H1 Hk Hk0). reflexivity.
      * intros Ek. cbn in Ek. apply Nat2Z.inj in Ek. now subst k.
Qed.

Lemma currentStepIndex_agrees_witness :
  currentStepIndex (app (run (EvStart :: ticks 9) initial_config)) = 1%Z /\
  currentStepIndex (app initial_config) = (-1)%Z.
Proof.
  split.
  - destruct (currentStepIndex_agrees (run (EvStart :: ticks 9) initial_config)) as [_ H].
    + apply reachable_run, reach_init.
    + apply (proj1 (H 1)). reflexivity.
  - destruct (currentStepIndex_agrees initial_config reach_init) as [H _].
    apply (proj2 H). reflexivity.
Defined.

Lemma steps_rebuild (l : list Step) :
  l = map (fun p => mkStep (fst (fst p)) (snd (fst p)) (snd p))
          (combine (registry l) (map status l)).
Proof.
  unfold registry. induction l as [|x l IH]; [reflexivity|].
  destruct x; cbn. f_equal. exact IH.
Qed.

Lemma reachable_steps c :
  reachable c -> exists pc, pc <= body_len /\ steps (app c) = steps_with (statuses_at pc).
Proof.
  intros Hr. destruct (reachable_Inv c Hr) as [pc HI]. exists pc.
  split; [exact (inv_pc _ _ HI)|].
  rewrite (steps_rebuild (steps (app c))) at 1.
  rewrite (reachable_registry c Hr).
  pose proof (inv_statuses _ _ HI) as Hs. unfold statuses in Hs. rewrite Hs.
  reflexivity.
Qed.

Lemma steps_check (P : list Step -> bool) :
  forallb (fun pc => P (steps_with (statuses_at pc))) (seq 0 (S body_len)) = true ->
  forall c, reachable c -> P (steps (app c)) = true.
Proof.
  intros H c Hr. destruct (reachable_steps c Hr) as (pc & Hpc & ->).
  apply (upto_body (fun pc => P (steps_with (statuses_at pc))) H pc Hpc).
Qed.

Lemma stepper_steps a : stepper a = view_of (steps a).
Proof. reflexivity. Qed.

(** Property X15.  In every reachable configuration the stepper shows five steps,
    with their initial labels; the connector hangs below each step but the
    last, so the bound [index < 4] of [StepIndicator] fits the number of
    steps; no step shows the alert icon; and at most one step shows the
    caption [Processing...], namely as many as are [loading]. *)
Theorem stepper_in_reachable (c : Config) :
  reachable c ->
  map labelText (stepper (app c)) = map label initial_steps /\
  map has_connector (stepper (app c)) = [true; true; true; true; false] /\
  forallb (fun v => negb (is_alert v)) (stepper (app c)) = true /\
  length (filter is_caption (stepper (app c))) = count_status loading (statuses c) /\
  length (filter is_caption (stepper (app c))) <= 1.
Proof.
  intros Hr. rewrite stepper_steps.
  split; [|split; [|split; [|split]]].
  - pose proof (steps_check
      (fun l => if list_eq_dec string_dec (map labelText (view_of l)) (map label initial_steps)
                then true else false)) as H.
    cbv beta in H. specialize (H eq_refl c Hr).
    destruct (list_eq_dec string_dec _ _) as [E|]; [exact E|discriminate].
  - pose proof (steps_check
      (fun l => list_bool_eqb (map has_connector (view_of l)) [true; true; true; true; false])) as H.
    cbv beta in H. specialize (H eq_refl c Hr). unfold list_bool_eqb in H.
    destruct (list_eq_dec Bool.bool_dec _ _) as [E|]; [exact E|discriminate].
  - apply (steps_check (fun l => forallb (fun v => negb (is_alert v)) (view_of l)));
      [vm_compute; reflexivity|exact Hr].
  - apply Nat.eqb_eq. unfold statuses.
    apply (steps_check (fun l => length (filter is_caption (view_of l)) =?
                                 count_status loading (map status l)));
      [vm_compute; reflexivity|exact Hr].
  - apply Nat.leb_le.
    apply (steps_check (fun l => length (filter is_caption (view_of l)) <=? 1));
      [vm_compute; reflexivity|exact Hr].
Qed.

Lemma stepper_in_reachable_witness :
  map has_connector (stepper (app (handleDeploy_throw_at 9 initial_config))) =
    [true; true; true; true; false] /\
  length (filter is_caption (stepper (app (handleDeploy_throw_at 9 initial_config)))) = 1.
Proof.
  destruct (stepper_in_reachable (handleDeploy_throw_at 9 initial_config))
    as (_ & H2 & _ & H4 & _).
  - apply reachable_run, reach_init.
  - split; [exact H2|]. rewrite H4. reflexivity.
Defined.

Lemma Inv_at_steps c pc :
  reachable c -> Inv_at c pc -> steps (app c) = steps_with (statuses_at pc).
Proof.
  intros Hr HI.
  rewrite (steps_rebuild (steps (app c))) at 1.
  rewrite (reachable_registry c Hr).
  pose proof (inv_statuses _ _ HI) as Hs. unfold statuses in Hs. rewrite Hs.
  reflexivity.
Qed.

Lemma result_is_url c u :
  reachable c -> result c = Some u -> exists pn, u = deploy_url pn.
Proof.
  intros Hr Hu. destruct (reachable_LogInv c Hr) as (pn & pc & Hpc & Hcl & H).
  exists pn. destruct (ctl c) as [|pn' pc'| |].
  - destruct H as [[_ Hres]|[(_ & _ & Hres)|[_ Hres]]]; congruence.
  - destruct H as (-> & -> & _ & Hres).
    destruct (pc =? body_len); congruence.
  - destruct H as (_ & _ & Hres). congruence.
  - destruct H as [[_ Hres]|[(_ & _ & Hres)|[_ Hres]]]; congruence.
Qed.

(** Property X16.  The success card shows exactly the result: the test
    [deployedUrl && ...] never hides a result, since no result is the empty
    string; and whenever the card is shown every step shows the check icon
    and none the caption [Processing...]. *)
Theorem success_card_shows_result (c : Config) :
  reachable c ->
  success_card (app c) = result c /\
  (success_card (app c) <> None ->
   forallb is_check (stepper (app c)) = true /\
   filter is_caption (stepper (app c)) = []).
Proof.
  intros Hr.
  assert (E : success_card (app c) = result c).
  { unfold success_card, result. destruct (deployedUrl (app c)) as [u|] eqn:Hu; [|reflexivity].
    destruct (result_is_url c u Hr Hu) as [pn ->]. reflexivity. }
  split; [exact E|]. rewrite E. intros Hres.
  destruct (reachable_Inv c Hr) as [pc HI].
  pose proof (inv_result _ _ HI Hres) as ->.
  rewrite stepper_steps, (Inv_at_steps c _ Hr HI). split; reflexivity.
Qed.

Lemma success_card_shows_result_witness :
  success_card (app (handleDeploy initial_config)) = Some "https://my-awesome-app.vercel.app" /\
  forallb is_check (stepper (app (handleDeploy initial_config))) = true.
Proof.
  destruct (success_card_shows_result (handleDeploy initial_config)) as [H1 H2].
  - apply reachable_run, reach_init.
  - split; [rewrite H1; reflexivity|].
    apply H2. rewrite H1. discriminate.
Defined.

Lemma list_status_eqb_eq a b : list_status_eqb a b = true -> a = b.
Proof.
  unfold list_status_eqb. intros H. apply andb_prop in H. destruct H as [Hl Hf].
  apply Nat.eqb_eq in Hl. revert b Hl Hf.
  induction a as [|x a IH]; intros [|y b] Hl Hf; try discriminate; [reflexivity|].
  cbn in Hl, Hf. apply andb_prop in Hf. destruct Hf as [Hxy Hf].
  f_equal; [destruct x, y; try discriminate; reflexivity|].
  apply IH; [lia|exact Hf].
Qed.

(** Property X19.  [TerminalView] renders one line per entry, in order and keyed by
    the index, and the placeholder exactly for the empty log; in a reachable
    configuration the placeholder means that no stage is done: all are
    [idle], or the first has just become [loading]. *)
Theorem terminal_placeholder (c : Config) :
  reachable c ->
  let t := TerminalView (logs (app c)) in
  map key (lines t) = seq 0 (length (logs (app c))) /\
  map children (lines t) =
    map (fun e => children (terminal_line 0 e)) (logs (app c)) /\
  (placeholder t <> None <-> logs (app c) = []) /\
  (placeholder t <> None ->
   statuses c = repeat idle 5 \/ statuses c = loading :: repeat idle 4).
Proof.
  intros Hr t. subst t. unfold TerminalView; cbn [lines placeholder].
  assert (Hk : forall (l : list LogEntry) n,
            map key (map (fun p => terminal_line (fst p) (snd p))
                         (combine (seq n (length l)) l)) = seq n (length l)).
  { induction l as [|e l IH]; intros n; [reflexivity|]. cbn. now rewrite IH. }
  assert (Hch : forall (l : list LogEntry) n,
            map children (map (fun p => terminal_line (fst p) (snd p))
                              (combine (seq n (length l)) l)) =
            map (fun e => children (terminal_line 0 e)) l).
  { induction l as [|e l IH]; intros n; [reflexivity|]. cbn. now rewrite IH. }
  split; [apply Hk|]. split; [apply Hch|].
  assert (Hph : (if length (logs (app c)) =? 0
                 then Some "Waiting for process to start..." else None) <> None <->
                logs (app c) = []).
  { destruct (logs (app c)); cbn; split; congruence. }
  split; [exact Hph|]. intros Hp. apply Hph in Hp.
  destruct (reachable_Inv c Hr) as [pc HI].
  pose proof (inv_logs _ _ HI) as Hl. rewrite Hp in Hl. cbn in Hl.
  pose proof (inv_pc _ _ HI) as Hpc. rewrite (inv_statuses _ _ HI).
  assert (Hb : (negb (logs_at pc =? 0) ||
                list_status_eqb (statuses_at pc) (repeat idle 5) ||
                list_status_eqb (statuses_at pc) (loading :: repeat idle 4)) = true).
  { apply (upto_body (fun pc => negb (logs_at pc =? 0) ||
                list_status_eqb (statuses_at pc) (repeat idle 5) ||
                list_status_eqb (statuses_at pc) (loading :: repeat idle 4)));
      [vm_compute; reflexivity|exact Hpc]. }
  replace (logs_at pc =? 0) with true in Hb by (symmetry; apply Nat.eqb_eq; lia).
  cbn [negb orb] in Hb. apply orb_prop in Hb.
  destruct Hb as [Hb|Hb]; apply list_status_eqb_eq in Hb; auto.
Qed.

Lemma terminal_placeholder_witness :
  let c := run [EvStart; EvTick "12:00:00"] initial_config in
  placeholder (TerminalView (logs (app c))) = Some "Waiting for process to start..." /\
  (statuses c = repeat idle 5 \/ statuses c = loading :: repeat idle 4).
Proof.
  intros c. split; [reflexivity|].
  destruct (terminal_placeholder c) as (_ & _ & _ & H).
  - apply reachable_run, reach_init.
  - apply H. discriminate.
Defined.

(** ** The guard of [handleDeploy] between renders *)

(** The guard holds for a press that comes after the render. *)
Lemma press_after_render (r : Rendered) :
  isDeploying (shown r) = true -> rstep RPress r = r.
Proof. unfold rstep. intros ->. reflexivity. Qed.

(** Claim C3.  The guard of line 159 reads the [isDeploying] of the render
    that created the handler, not the cell.  After a first press has set
    the cell to true and written the first entry of the log, a second press
    from the same render is not a no-op: it empties the log, writes the
    steps again and starts a second invocation beside the first; the two
    run to their end and leave a log of 31 entries, ten of them of type
    [success].  With a render between the two presses the second changes
    nothing. *)
Theorem second_press_before_render :
  let r1 := rrun (press_and_prefix 0) initial_rendered in
  let r2 := rstep RPress r1 in
  let r3 := rrun ([RTick 1 "12:00:00"; RTick 1 "12:00:00"; RRender] ++ in_turn 36) r2 in
  isDeploying (live r1) = true /\
  isDeploying (shown r1) = false /\
  length (logs (live r1)) = 1 /\
  logs (live r2) = [] /\
  flights r2 = [InTry "my-awesome-app" 2; InTry "my-awesome-app" 0] /\
  r2 <> r1 /\
  flights r3 = [Idle; Idle] /\
  length (logs (live r3)) = 31 /\
  count_log LogType.success (logs (live r3)) = 10 /\
  deployedUrl (live r3) = Some "https://my-awesome-app.vercel.app" /\
  isDeploying (live r3) = false /\
  rstep RPress (rstep RRender r1) = rstep RRender r1.
Proof.
  cbv zeta.
  repeat match goal with |- _ /\ _ => split end; try reflexivity.
  - intros H. apply (f_equal (fun r => length (flights r))) in H.
    vm_compute in H. discriminate.
Qed.
